(** * strict_check.py: the WMS capabilities parser, the WMS cross-checks
      and the TMS zoom probing, embedded as Rocq functions.

    Everything below follows [scripts/strict_check.py].  The script's
    collaborators (requests, ElementTree's reader, urllib.parse,
    validators, mercantile, shapely, str.format) are not part of the
    script: they are the fields of the class [Env], and the theorems on
    [check_wms] and [check_tms] hold for every instance of it.  Python
    exceptions are values of [exn]; code that can raise returns a
    [result]. *)

From Stdlib Require Import ZArith QArith String Ascii List.
From stdpp Require Import gmap strings list pretty sorting.

Open Scope string_scope.
Open Scope list_scope.

(** ** Python strings

    [str] is modelled by [string]; [lower] and [upper] act on the ASCII
    letters, which is what they do on the ASCII text of WMS parameters and
    CRS identifiers. *)

Definition ascii_lower (c : ascii) : ascii :=
  let n := nat_of_ascii c in
  if (65 <=? n)%nat && (n <=? 90)%nat then ascii_of_nat (n + 32) else c.

Definition ascii_upper (c : ascii) : ascii :=
  let n := nat_of_ascii c in
  if (97 <=? n)%nat && (n <=? 122)%nat then ascii_of_nat (n - 32) else c.

Fixpoint str_map (f : ascii → ascii) (s : string) : string :=
  match s with
  | EmptyString => EmptyString
  | String c s' => String (f c) (str_map f s')
  end.

(** [s.lower()] and [s.upper()]. *)
Definition lower (s : string) : string := str_map ascii_lower s.
Definition upper (s : string) : string := str_map ascii_upper s.

(** [sub in s]. *)
Fixpoint contains (sub s : string) : bool :=
  String.prefix sub s ||
  match s with
  | EmptyString => false
  | String _ s' => contains sub s'
  end.

(** [s.split(sep)] for a separator of one character. *)
Fixpoint split (sep : ascii) (s : string) : list string :=
  match s with
  | EmptyString => [EmptyString]
  | String c s' =>
      if Ascii.eqb c sep then EmptyString :: split sep s'
      else match split sep s' with
           | x :: r => String c x :: r
           | [] => [String c EmptyString]
           end
  end.

(** [sep.join(l)]. *)
Fixpoint join (sep : string) (l : list string) : string :=
  match l with
  | [] => EmptyString
  | [x] => x
  | x :: r => x +:+ sep +:+ join sep r
  end.

(** [s.rpartition(sep)[-1]]: what follows the last [sep], all of [s] when
    there is none; this is the last piece of [s.split(sep)]. *)
Definition rpartition_last (sep : ascii) (s : string) : string :=
  List.last (split sep s) EmptyString.

(** [s.replace(old, new)] for a non-empty [old]: occurrences are replaced
    from the left and do not overlap.  [skip] counts the characters of an
    occurrence that are still to be dropped. *)
Fixpoint replace_go (old new : string) (skip : nat) (s : string) : string :=
  match s with
  | EmptyString => EmptyString
  | String c s' =>
      match skip with
      | S k => replace_go old new k s'
      | O =>
          if String.prefix old s
          then new +:+ replace_go old new (String.length old - 1) s'
          else String c (replace_go old new 0 s')
      end
  end.

Definition replace (old new s : string) : string := replace_go old new 0 s.

(** [c * n] for a one-character string. *)
Fixpoint str_repeat (c : ascii) (n : nat) : string :=
  match n with
  | O => EmptyString
  | S k => String c (str_repeat c k)
  end.

(** [str(n)] for an [int]. *)
Definition str_int (n : Z) : string := pretty n.

(** ** Exceptions *)

Inductive exn :=
  | RuntimeError (msg : string)
  | KeyError (key : string)
  | AttributeError (msg : string)
  | TypeError (msg : string)
  | OtherError (msg : string).

(** [str(e)]: a [KeyError] prints the [repr] of its key. *)
Definition str_exn (e : exn) : string :=
  match e with
  | RuntimeError m | AttributeError m | TypeError m | OtherError m => m
  | KeyError k => "'" +:+ k +:+ "'"
  end.

Inductive result (A : Type) :=
  | Ok (a : A)
  | Raise (e : exn).
Arguments Ok {A} a.
Arguments Raise {A} e.

#[export] Instance result_ret : MRet result := λ A a, Ok a.
#[export] Instance result_bind : MBind result := λ A B f r,
  match r with
  | Ok a => f a
  | Raise e => Raise e
  end.
#[export] Instance result_fmap : FMap result := λ A B f r,
  match r with
  | Ok a => Ok (f a)
  | Raise e => Raise e
  end.

(** ** ElementTree elements

    An element as [xml.etree.ElementTree] holds it: tag, attribute dict,
    text ([None] for an element without text) and children. *)

#[warnings="-register-all"]
Inductive Element :=
  | Elem (tag : string) (attrib : list (string * string))
            (text : option string) (children : list Element).

Definition tag (e : Element) : string :=
  match e with Elem t _ _ _ => t end.
Definition attrib (e : Element) : list (string * string) :=
  match e with Elem _ a _ _ => a end.
Definition text (e : Element) : option string :=
  match e with Elem _ _ t _ => t end.
Definition children (e : Element) : list Element :=
  match e with Elem _ _ _ c => c end.

(** [k in d] and [d[k]] on an attribute dict. *)
Fixpoint attrib_get (k : string) (d : list (string * string)) : option string :=
  match d with
  | [] => None
  | (k', v) :: d' => if String.eqb k k' then Some v else attrib_get k d'
  end.

(** The loop over [ET.iterparse]: every element's tag loses its
    namespace prefix [{uri}]. *)
Fixpoint strip_prefixes (e : Element) : Element :=
  match e with
  | Elem t a x cs => Elem (rpartition_last "}" t) a x (map strip_prefixes cs)
  end.

(** [element.findall("./tag")] and [element.find("./tag")]. *)
Definition findall (t : string) (e : Element) : list Element :=
  filter (λ c, tag c = t) (children e).

Definition find (t : string) (e : Element) : option Element :=
  head (findall t e).

(** [e.iter()]: the element and its descendants in document order. *)
Fixpoint iter (e : Element) : list Element :=
  match e with
  | Elem _ _ _ cs => e :: flat_map iter cs
  end.

(** [root.findall(".//" + t1 + "/" + ... )]: the proper descendants of
    [root] tagged [t], then one child step for each further tag. *)
Definition descendants (t : string) (root : Element) : list Element :=
  filter (λ c, tag c = t) (flat_map iter (children root)).

Definition find_path (t : string) (steps : list string) (root : Element) : list Element :=
  fold_left (λ es s, flat_map (findall s) es) steps (descendants t root).

(** ** parse_wms

    A [set] object lives in a heap and is named by its address, because the
    script hands one set object to several layers; dicts that are never
    written after they are shared are plain values. *)

(** The address of a set object. *)
Abbreviation loc := nat.

Definition set_get (l : loc) (h : list (gset string)) : gset string :=
  default ∅ (h !! l).

(** [h[l].add(x)]. *)
Definition set_add (l : loc) (x : string) (h : list (gset string)) : list (gset string) :=
  alter (λ s, s ∪ {[x]}) l h.

(** [h[l].copy()]: a new set object with the elements of [h[l]]. *)
Definition set_copy (l : loc) (h : list (gset string)) : loc * list (gset string) :=
  (List.length h, h ++ [set_get l h]).

(** A style dict [{'Title': ..., 'Name': ...}].  The text of an element can
    be [None]; a dict key can be [None] for the same reason. *)
Record style := {
  style_Title : option (option string);
  style_Name : option string
}.

(** A layer dict.  [CRS] is the address of the layer's set object;
    [Name], [Title], [Abstract] are [None] when the key is absent. *)
Record layer := {
  CRS : loc;
  Styles : gmap (option string) style;
  Name : option (option string);
  Title : option (option string);
  Abstract : option (option string)
}.

(** The variables [parse_layer] closes over and the heap. *)
Record pstate := {
  heap : list (gset string);
  layers : gmap (option string) layer
}.

(** The loop over the [CRS] and [SRS] children. *)
Fixpoint add_crs (crs : loc) (es : list Element) (h : list (gset string))
  : result (list (gset string)) :=
  match es with
  | [] => Ok h
  | e :: es' =>
      match text e with
      | None => Raise (AttributeError "'NoneType' object has no attribute 'upper'")
      | Some t => add_crs crs es' (set_add crs (upper t) h)
      end
  end.

(** The loop over the [Style] children. *)
Fixpoint add_styles (es : list Element) (styles : gmap (option string) style)
  : result (gmap (option string) style) :=
  match es with
  | [] => Ok styles
  | e :: es' =>
      match find "Name" e with
      | None => Raise (KeyError "Name")
      | Some el =>
          let new_style := {| style_Title := text <$> find "Title" e;
                              style_Name := text el |} in
          add_styles es' (<[style_Name new_style := new_style]> styles)
      end
  end.

Fixpoint parse_layer (element : Element) (crs : loc)
    (styles : gmap (option string) style) (st : pstate) : result pstate :=
  match element with
  | Elem _ _ _ cs =>
      h ← add_crs crs (findall "CRS" element ++ findall "SRS" element) (heap st);
      new_styles ← add_styles (findall "Style" element) styles;
      let new_layer := {| CRS := crs;
                          Styles := new_styles;
                          Name := text <$> find "Name" element;
                          Title := text <$> find "Title" element;
                          Abstract := text <$> find "Abstract" element |} in
      let layers' := match Name new_layer with
                     | Some n => <[n := new_layer]> (layers st)
                     | None => layers st
                     end in
      (fix sublayers (sls : list Element) (st : pstate) : result pstate :=
         match sls with
         | [] => Ok st
         | sl :: sls' =>
             if decide (tag sl = "Layer") then
               let '(c, h') := set_copy crs (heap st) in
               st' ← parse_layer sl c new_styles
                       {| heap := h'; layers := layers st |};
               sublayers sls' st'
             else sublayers sls' st
         end) cs {| heap := h; layers := layers' |}
  end.

(** The loop over the top layers: each call leaves [crs] and [styles] to
    their defaults.  The default [set()] is one object, made when the
    [def] is executed; it is at address [0]. *)
Fixpoint parse_top_layers (tls : list Element) (st : pstate) : result pstate :=
  match tls with
  | [] => Ok st
  | tl :: tls' => st' ← parse_layer tl 0%nat ∅ st; parse_top_layers tls' st'
  end.

Record wms := {
  version : string;
  wms_layers : gmap (option string) layer;
  formats : list (option string);
  wms_heap : list (gset string)
}.

(** [wms['layers'][name]['CRS']], read when [parse_wms] has returned. *)
Definition layer_crs (w : wms) (name : string) : option (gset string) :=
  (λ l, set_get (CRS l) (wms_heap w)) <$> wms_layers w !! Some name.

(** [parse_wms] from the line after the [try], on the root that
    [iterparse] left. *)
Definition parse_root (root : Element) : result wms :=
  let root_tag := rpartition_last "}" (tag root) in
  if bool_decide (root_tag ∈ ["ServiceExceptionReport"; "ServiceException"])
  then Raise (RuntimeError "WMS service exception")
  else if negb (bool_decide (root_tag ∈ ["WMT_MS_Capabilities"; "WMS_Capabilities"]))
  then Raise (RuntimeError ("No Capabilities Element present: Root tag: " +:+ root_tag))
  else match attrib_get "version" (attrib root) with
  | None => Raise (RuntimeError "WMS version cannot be identified.")
  | Some v =>
      st ← parse_top_layers (find_path "Capability" ["Layer"] root)
             {| heap := [∅]; layers := ∅ |};
      Ok {| version := v;
            wms_layers := layers st;
            formats := text <$> find_path "Capability" ["Request"; "GetMap"; "Format"] root;
            wms_heap := heap st |}
  end.

(** [xml] is the text of a response; [iterparse xml] is the root that
    [ET.iterparse(StringIO(xml))] builds, [None] when it raises. *)
Definition parse_wms (iterparse : string → option Element) (xml : string) : result wms :=
  match iterparse xml with
  | None => Raise (RuntimeError "Could not parse XML.")
  | Some root => parse_root (strip_prefixes root)
  end.

(** ** Collaborators

    What the script imports and calls.  [requests_get] answers a URL the
    same way each time it is asked during one run.  A [float] is written as
    the rational it stands for.  [urlparse] is taken on the URLs that it
    accepts; on one that it rejects (a bracket in the host that is not
    closed) it raises [ValueError], and [check_wms] ends there, before
    its first request. *)

Record url_parts := {
  scheme : string; netloc : string; path : string;
  params : string; query : string; fragment : string
}.

Record response := { status_code : Z; resp_text : string }.

(** A value that [json.load] returns. *)
#[warnings="-register-all"]
Inductive json :=
  | JNull
  | JBool (b : bool)
  | JNum (q : Q)
  | JStr (s : string)
  | JArr (items : list json)
  | JObj (members : list (string * json)).

Inductive pynum :=
  | PyInt (n : Z)
  | PyFloat (q : Q).

Inductive pyval :=
  | VStr (s : string)
  | VInt (n : Z).

Class Env := {
  (** [validators.url(u)] is truthy *)
  validators_url : string → bool;
  (** [urllib.parse]: [urlparse], [parse_qsl], [urlencode], [urlunparse] *)
  urlparse : string → url_parts;
  parse_qsl : string → list (string * string);
  urlencode : list (string * string) → string;
  urlunparse : url_parts → string;
  (** [requests.get(url)] *)
  requests_get : string → result response;
  (** [ET.iterparse(StringIO(xml))] run to its end: the root, [None] when
      it raises *)
  iterparse : string → option Element;
  (** [shape(geometry).representative_point()] as [(x, y)] *)
  representative_point : json → result (Q * Q);
  (** [mercantile.tile(lng, lat, zoom)] as [(tile.x, tile.y)] *)
  mercantile_tile : Q → Q → Z → result (Z * Z);
  (** [template.format] applied to the [parameters] dict *)
  str_format : string → list (string * pyval) → result string;
  (** [str(f)] for a [float] *)
  str_float : Q → string
}.

(** The keys of [source] that the checks read: [properties.url],
    [properties.available_projections], [properties.min_zoom] and
    [properties.max_zoom] after [int(...)], and [geometry] ([None] when the
    key is absent or null). *)
Record source := {
  url : string;
  available_projections : option (list string);
  min_zoom : option Z;
  max_zoom : option Z;
  geometry : option json
}.

(** What one check leaves: the three message lists, the URLs it asked
    [requests.get] for, in order, and the exception that left the check
    uncaught, if one did. *)
Record outcome := {
  good_msgs : list string;
  warning_msgs : list string;
  error_msgs : list string;
  requested : list string;
  uncaught : option exn
}.

(** ** check_wms *)

(** The loop [for k, v in parse_qsl(u.query): wms_args[k.lower()] = v]. *)
Definition wms_args_of (pairs : list (string * string)) : gmap string string :=
  fold_left (λ d kv, <[lower kv.1 := kv.2]> d) pairs ∅.

(** [k in d] for a dict. *)
Definition has (k : string) (d : gmap string string) : bool :=
  bool_decide (is_Some (d !! k)).

(** [d[k]] where the script has checked [k in d]. *)
Definition get (k : string) (d : gmap string string) : string :=
  default EmptyString (d !! k).

Definition mandatory : list string :=
  ["version"; "request"; "layers"; "bbox"; "width"; "height"; "format"].

Definition missing_request_parameters (wms_args : gmap string string) : gset string :=
  let missing : gset string :=
    list_to_set (filter (λ p, has (lower p) wms_args = false) mandatory) in
  if has "version" wms_args && String.eqb (get "version" wms_args) "1.3.0" then
    if negb (has "crs" wms_args) then missing ∪ {["crs"]} else missing
  else if has "version" wms_args && negb (String.eqb (get "version" wms_args) "1.3.0") then
    if negb (has "srs" wms_args) then missing ∪ {["srs"]} else missing
  else missing.

(** The message for a non-empty set of missing parameters.  Python does
    not fix the order in which a [set] is joined; the model joins
    [elements]. *)
Definition missing_msg (missing : gset string) : string :=
  "Parameter '" +:+ join "," (elements missing) +:+ "' is missing in url.".

Definition versions : list (option string) :=
  [None; Some "1.3.0"; Some "1.1.1"; Some "1.1.0"; Some "1.0.0"].

Section CheckWms.
Context `{Env}.

Definition get_GetCapabilities_url (url_parts : url_parts)
    (wms_args : gmap string string) (wms_version : option string) : string :=
  let get_capabilities_args :=
    [("service", "WMS"); ("request", "GetCapabilities")]
    ++ match wms_version with Some v => [("version", v)] | None => [] end
    ++ match wms_args !! "map" with Some m => [("map", m)] | None => [] end in
  urlunparse {| scheme := scheme url_parts; netloc := netloc url_parts;
                path := path url_parts; params := params url_parts;
                query := urlencode get_capabilities_args;
                fragment := fragment url_parts |}.

(** One pass of the [try] in the negotiation loop. *)
Definition attempt (url_parts : url_parts) (wms_args : gmap string string)
    (wmsversion : option string) : result wms :=
  r ← requests_get (get_GetCapabilities_url url_parts wms_args wmsversion);
  parse_wms iterparse (resp_text r).

Definition exception_msg (wmsversion : option string) (e : exn) : string :=
  "WMS " +:+ default "-" wmsversion +:+ ": Error: " +:+ str_exn e.

(** The negotiation loop from [wmsversion] on: the parsed capabilities if
    an attempt gave them, the [exceptions] list, the URLs requested. *)
Fixpoint negotiate (url_parts : url_parts) (wms_args : gmap string string)
    (todo : list (option string)) (exceptions requested : list string)
  : option wms * list string * list string :=
  match todo with
  | [] => (None, exceptions, requested)
  | wmsversion :: todo' =>
      let u := get_GetCapabilities_url url_parts wms_args wmsversion in
      match attempt url_parts wms_args wmsversion with
      | Ok w => (Some w, exceptions, requested ++ [u])
      | Raise e =>
          negotiate url_parts wms_args todo'
            (exceptions ++ [exception_msg wmsversion e]) (requested ++ [u])
      end
  end.

(** [# Check layers] *)
Definition check_layers (layer_arg : string) (w : wms) : list string :=
  let not_found_layers :=
    filter (λ layer_name, wms_layers w !! Some layer_name = None)
           (split "," layer_arg) in
  if (0 <? List.length not_found_layers)%nat
  then ["Layers '" +:+ join "," not_found_layers
        +:+ "' not advertised by WMS GetCapabilities request."]
  else [].

(** The body of the loop over [zip(layers, styles)]. *)
Definition check_style (w : wms) (layer_name style : string) : list string :=
  match wms_layers w !! Some layer_name with
  | Some l =>
      if (0 <? String.length style)%nat && bool_decide (Styles l !! Some style = None)
      then ["Layer '" +:+ layer_name +:+ "' does not support style '" +:+ style +:+ "'"]
      else []
  | None => []
  end.

(** [# Check styles] *)
Definition check_styles (wms_args : gmap string string) (layer_arg : string)
    (w : wms) : list string :=
  match wms_args !! "styles" with
  | None => []
  | Some style =>
      let layers := split "," layer_arg in
      if String.eqb style "default" || String.eqb style ""
         || String.eqb style (str_repeat "," (List.length layers))
      then []
      else
        let styles := split "," style in
        if negb (List.length styles =? List.length layers)%nat
        then ["Not the same number of styles and layers."]
        else flat_map (λ p, check_style w p.1 p.2) (zip layers styles)
  end.

(** The body of the loop over the layers in [# Check CRS]. *)
Definition check_layer_crs (projections : list string) (w : wms)
    (layer_name : string) : list string :=
  match wms_layers w !! Some layer_name with
  | Some l =>
      let advertised := set_get (CRS l) (wms_heap w) in
      let not_supported_crs : gset string :=
        list_to_set (filter (λ crs, upper crs ∉ advertised) projections) in
      if (0 <? size not_supported_crs)%nat
      then ["CRS '" +:+ join "," (elements not_supported_crs)
            +:+ "' not in: " +:+ join "," (elements advertised)]
      else []
  | None => []
  end.

(** [# Check CRS] *)
Definition check_crs (src : source) (layer_arg : string) (w : wms) : list string :=
  match available_projections src with
  | None => ["source is missing 'available_projections' element."]
  | Some projections =>
      flat_map (check_layer_crs projections w) (split "," layer_arg)
  end.

(** [sep.join(l)] where an item can be [None]: a [TypeError] then. *)
Fixpoint join_items (sep : string) (i : Z) (l : list (option string)) : result string :=
  match l with
  | [] => Ok EmptyString
  | None :: _ =>
      Raise (TypeError ("sequence item " +:+ str_int i
                        +:+ ": expected str instance, NoneType found"))
  | Some x :: r =>
      rest ← join_items sep (i + 1) r;
      Ok (match r with [] => x | _ => x +:+ sep +:+ rest end)
  end.

(** The checks that follow a successful negotiation, from [# Check
    layers] to the end.  [o] is what the check has left so far. *)
Definition cross_check (src : source) (wms_args : gmap string string)
    (w : wms) (o : outcome) : outcome :=
  let layer_errors :=
    match wms_args !! "layers" with
    | Some layer_arg =>
        check_layers layer_arg w ++ check_styles wms_args layer_arg w
        ++ check_crs src layer_arg w
    | None => []
    end in
  let version_warning :=
    if String.ltb (get "version" wms_args) (version w)
    then ["Query requests WMS version '" +:+ get "version" wms_args
          +:+ "', server supports '" +:+ version w +:+ "'"]
    else [] in
  let imagery_format := get "format" wms_args in
  match join_items "', '" 0 (formats w) with
  | Raise e =>
      {| good_msgs := good_msgs o;
         warning_msgs := warning_msgs o ++ version_warning;
         error_msgs := error_msgs o ++ layer_errors;
         requested := requested o;
         uncaught := Some e |}
  | Ok imagery_formats_str =>
      let format_error :=
        if bool_decide (Some imagery_format ∈ formats w) then []
        else ["Format '" +:+ imagery_format +:+ "' not in '"
              +:+ imagery_formats_str +:+ "'."] in
      let jpeg_warning :=
        if negb (contains "jpeg" imagery_format) && contains "jpeg" imagery_formats_str
        then ["Server supports jpeg, but '" +:+ imagery_format
              +:+ "' is used. (Server supports: '" +:+ imagery_formats_str +:+ "')"]
        else [] in
      {| good_msgs := good_msgs o;
         warning_msgs := warning_msgs o ++ version_warning ++ jpeg_warning;
         error_msgs := error_msgs o ++ layer_errors ++ format_error;
         requested := requested o;
         uncaught := None |}
  end.

Definition placeholders : list string := ["{proj}"; "{bbox}"; "{width}"; "{height}"].

(** The two checks on the URL that come first. *)
Definition url_errors (wms_url : string) : list string :=
  let url_error :=
    if validators_url (replace "}" "" (replace "{" "" wms_url)) then []
    else ["URL validation error: " +:+ wms_url] in
  let missingparams := filter (λ p, contains p wms_url = false) placeholders in
  let placeholder_error :=
    if (0 <? List.length missingparams)%nat
    then ["The following values are missing in the URL: " +:+ join "," missingparams]
    else [] in
  url_error ++ placeholder_error.

(** [wms_args] for a URL. *)
Definition args_of_url (wms_url : string) : gmap string string :=
  wms_args_of (parse_qsl (query (urlparse wms_url))).

Definition styles_warning (wms_args : gmap string string) : list string :=
  if has "styles" wms_args then []
  else ["Parameter 'styles' is missing in url. 'STYLES=' can be used to request default style."].

Definition check_wms (src : source) : outcome :=
  let wms_url := url src in
  let url_parts := urlparse wms_url in
  let wms_args := args_of_url wms_url in
  let missing := missing_request_parameters wms_args in
  if (0 <? size missing)%nat then
    {| good_msgs := []; warning_msgs := [];
       error_msgs := url_errors wms_url ++ [missing_msg missing];
       requested := []; uncaught := None |}
  else
    match negotiate url_parts wms_args versions [] [] with
    | (None, exceptions, reqs) =>
        {| good_msgs := []; warning_msgs := styles_warning wms_args;
           error_msgs := url_errors wms_url ++ exceptions;
           requested := reqs; uncaught := None |}
    | (Some w, _, reqs) =>
        cross_check src wms_args w
          {| good_msgs := []; warning_msgs := styles_warning wms_args;
             error_msgs := url_errors wms_url;
             requested := reqs; uncaught := None |}
    end.
End CheckWms.

(** ** check_tms *)

(** [2 ** e] for an [int] [e]: an [int] when [e] is not negative, the
    [float] [2.0 ** e] otherwise. *)
Definition py_pow2 (e : Z) : pynum :=
  if (0 <=? e)%Z then PyInt (2 ^ e) else PyFloat (Qpower 2 e).

(** [a - b]: [int] arithmetic on two [int]s, [float] arithmetic
    otherwise (exact where binary64 is). *)
Definition py_sub (a b : pynum) : pynum :=
  match a, b with
  | PyInt x, PyInt y => PyInt (x - y)
  | PyInt x, PyFloat y => PyFloat (inject_Z x - y)
  | PyFloat x, PyInt y => PyFloat (x - inject_Z y)
  | PyFloat x, PyFloat y => PyFloat (x - y)
  end.

(** The three conventions for the row in a tile URL. *)
Inductive y_token := y_plain | y_minus | y_bang.

(** The [if]/[elif]/[else] on the template in [test_zoom]. *)
Definition y_token_of (tms_url : string) : y_token :=
  if contains "{-y}" tms_url then y_minus
  else if contains "{!y}" tms_url then y_bang
  else y_plain.

Definition y_placeholder (t : y_token) : string :=
  match t with
  | y_plain => "{y}"
  | y_minus => "{-y}"
  | y_bang => "{!y}"
  end.

(** The number that replaces the placeholder, for [zoom] and [tile.y]. *)
Definition y_value (t : y_token) (zoom tile_y : Z) : pynum :=
  match t with
  | y_plain => PyInt tile_y
  | y_minus => py_sub (py_sub (py_pow2 zoom) (PyInt 1)) (PyInt tile_y)
  | y_bang => py_sub (py_sub (py_pow2 (zoom - 1)) (PyInt 1)) (PyInt tile_y)
  end.

(** [range(a, b)] and [range(a, b, -1)]. *)
Definition range (a b : Z) : list Z :=
  (λ i, a + Z.of_nat i)%Z <$> seq 0 (Z.to_nat (b - a)).

Definition range_down (a b : Z) : list Z :=
  (λ i, a - Z.of_nat i)%Z <$> seq 0 (Z.to_nat (a - b)).

(** [re.search] for the pattern: the word switch, an optional colon, then
    a group of the characters up to the next closing brace; the result is
    [(group(0), group(1))] of the leftmost match. *)
Fixpoint take_until (c : ascii) (s : string) : string :=
  match s with
  | EmptyString => EmptyString
  | String a s' => if Ascii.eqb a c then EmptyString else String a (take_until c s')
  end.

Definition match_switch_here (s : string) : option (string * string) :=
  if String.prefix "switch" s then
    let rest := String.substring 6 (String.length s - 6) s in
    match rest with
    | String ":" rest' =>
        Some ("switch:" +:+ take_until "}" rest', take_until "}" rest')
    | _ => Some ("switch" +:+ take_until "}" rest, take_until "}" rest)
    end
  else None.

Fixpoint search_switch (s : string) : option (string * string) :=
  match match_switch_here s with
  | Some m => Some m
  | None =>
      match s with
      | EmptyString => None
      | String _ s' => search_switch s'
      end
  end.

(** The variables [test_zoom] closes over and writes, and the URLs handed
    to [test_url] so far. *)
Record probes := {
  tested_zooms : gset Z;
  zoom_success : list Z;
  zoom_failures : list Z;
  fetched : list string
}.

(** A computation on [probes] that can raise; what was written before the
    exception stays written. *)
Definition probing (A : Type) : Type := probes → probes * result A.

#[export] Instance probing_ret : MRet probing := λ A a st, (st, Ok a).
#[export] Instance probing_bind : MBind probing := λ A B f m st,
  match m st with
  | (st', Ok a) => f a st'
  | (st', Raise e) => (st', Raise e)
  end.

Section CheckTms.
Context `{Env}.

Definition test_url (url : string) : bool :=
  match requests_get url with
  | Ok r => bool_decide (status_code r = 200%Z)
  | Raise _ => false
  end.

Definition str_num (y : pynum) : string :=
  match y with
  | PyInt n => str_int n
  | PyFloat q => str_float q
  end.

(** What [test_zoom] needs from the enclosing call. *)
Record tms_env := {
  centroid : Q * Q;
  tms_url : string;
  parameters : list (string * pyval)
}.

(** [query_url] when [test_zoom] hands it to [test_url]. *)
Definition query_url (e : tms_env) (zoom : Z) : result string :=
  tile ← mercantile_tile (centroid e).1 (centroid e).2 zoom;
  let t := y_token_of (tms_url e) in
  str_format (replace (y_placeholder t) (str_num (y_value t zoom tile.2)) (tms_url e))
             (parameters e ++ [("x", VInt tile.1); ("zoom", VInt zoom)]).

Definition test_zoom (e : tms_env) (zoom : Z) : probing bool := λ st,
  let st := {| tested_zooms := tested_zooms st ∪ {[zoom]};
               zoom_success := zoom_success st;
               zoom_failures := zoom_failures st;
               fetched := fetched st |} in
  match query_url e zoom with
  | Raise ex => (st, Raise ex)
  | Ok u =>
      if test_url u
      then ({| tested_zooms := tested_zooms st;
               zoom_success := zoom_success st ++ [zoom];
               zoom_failures := zoom_failures st;
               fetched := fetched st ++ [u] |}, Ok true)
      else ({| tested_zooms := tested_zooms st;
               zoom_success := zoom_success st;
               zoom_failures := zoom_failures st ++ [zoom];
               fetched := fetched st ++ [u] |}, Ok false)
  end.

(** The loops [for zoom in ...: if zoom not in tested_zooms: if
    test_zoom(zoom): break]. *)
Fixpoint widen (e : tms_env) (zooms : list Z) : probing unit := λ st,
  match zooms with
  | [] => (st, Ok tt)
  | zoom :: zooms' =>
      if bool_decide (zoom ∈ tested_zooms st) then widen e zooms' st
      else match test_zoom e zoom st with
           | (st', Ok true) => (st', Ok tt)
           | (st', Ok false) => widen e zooms' st'
           | (st', Raise ex) => (st', Raise ex)
           end
  end.

(** [# Test min zoom] *)
Definition min_phase (e : tms_env) (min_zoom max_zoom : Z) : probing unit :=
  ok ← test_zoom e min_zoom;
  if ok : bool then mret tt
  else widen e (range (min_zoom + 1) (Z.min (min_zoom + 4) max_zoom)).

(** [# Test max_zoom] *)
Definition max_phase (e : tms_env) (min_zoom max_zoom : Z) : probing unit :=
  ok ← test_zoom e max_zoom;
  if ok : bool then mret tt
  else widen e (range_down max_zoom (Z.max (max_zoom - 4) min_zoom)).

Definition no_probes : probes :=
  {| tested_zooms := ∅; zoom_success := []; zoom_failures := []; fetched := [] |}.

Definition str_zooms (zooms : list Z) : string :=
  join "," (str_int <$> merge_sort Z.le zooms).

(** The three-way classification at the end of [check_tms]. *)
Definition classify (st : probes) : outcome :=
  let tested_str := str_zooms (elements (tested_zooms st)) in
  if (List.length (zoom_failures st) =? 0)%nat && (0 <? List.length (zoom_success st))%nat then
    {| good_msgs := ["Zoom levels reachable. (Tested: " +:+ tested_str +:+ ")"];
       warning_msgs := []; error_msgs := [];
       requested := fetched st; uncaught := None |}
  else if (0 <? List.length (zoom_failures st))%nat && (0 <? List.length (zoom_success st))%nat then
    {| good_msgs := []; warning_msgs := [];
       error_msgs := ["Zoom level " +:+ str_zooms (zoom_failures st)
                      +:+ " not reachable. (Tested: " +:+ tested_str +:+ ")"];
       requested := fetched st; uncaught := None |}
  else
    {| good_msgs := []; warning_msgs := [];
       error_msgs := ["No zoom level reachable. (Tested: " +:+ tested_str +:+ ")"];
       requested := fetched st; uncaught := None |}.

(** The [except Exception as e] around the body of [check_tms]. *)
Definition exception_outcome (st : probes) (ex : exn) : outcome :=
  {| good_msgs := []; warning_msgs := [];
     error_msgs := ["Exception: " +:+ str_exn ex];
     requested := fetched st; uncaught := None |}.

(** The rewriting of a [{switch:a,b,c}] template. *)
Definition resolve_switch (tms_url : string) : result (string * list (string * pyval)) :=
  if contains "{switch:" tms_url then
    match search_switch tms_url with
    | None => Raise (AttributeError "'NoneType' object has no attribute 'group'")
    | Some (group0, group1) =>
        Ok (replace group0 "switch" tms_url,
            [("switch", VStr (default EmptyString (head (split "," group1))))])
    end
  else Ok (tms_url, []).

(** The probing, from [zoom_failures = []] to the end of the second
    phase. *)
Definition probe_zooms (e : tms_env) (min_zoom max_zoom : Z) : probing unit :=
  min_phase e min_zoom max_zoom;; max_phase e min_zoom max_zoom.

(** [centroid]: the representative point of the geometry, or the fixed
    [Point(6.1, 49.6)]. *)
Definition centroid_of (src : source) : result (Q * Q) :=
  match geometry src with
  | Some g => representative_point g
  | None => Ok (61 # 10, 496 # 10)
  end.

Definition check_tms (src : source) : outcome :=
  match centroid_of src with
  | Raise ex => exception_outcome no_probes ex
  | Ok centroid =>
      if contains "{z}" (url src) then
        {| good_msgs := []; warning_msgs := [];
           error_msgs := ["{z} found instead of {zoom} in tile url"];
           requested := []; uncaught := None |}
      else if contains "{apikey}" (url src) then
        {| good_msgs := [];
           warning_msgs := ["Not possible to check URL, apikey is required."];
           error_msgs := []; requested := []; uncaught := None |}
      else
        match resolve_switch (url src) with
        | Raise ex => exception_outcome no_probes ex
        | Ok (tms_url, parameters) =>
            let e := {| centroid := centroid; tms_url := tms_url;
                        parameters := parameters |} in
            match probe_zooms e (default 0%Z (min_zoom src))
                                (default 22%Z (max_zoom src)) no_probes with
            | (st, Ok _) => classify st
            | (st, Raise ex) => exception_outcome st ex
            end
        end
  end.

(** Whether [test_zoom(zoom)] finds the tile, for the statements below. *)
Definition reachable (e : tms_env) (zoom : Z) : result bool :=
  test_url <$> query_url e zoom.
End CheckTms.

(** ** Notions used in the statements *)

(** The value that the parameter map keeps for [k]: that of the last pair
    whose name, in lower case, is [k]. *)
Definition last_value (k : string) (pairs : list (string * string)) : option string :=
  snd <$> last (filter (λ kv, lower kv.1 = k) pairs).


(** The two messages of [# Check styles]. *)
Definition style_error (m : string) : Prop :=
  m = "Not the same number of styles and layers."
  ∨ ∃ layer_name style,
      m = "Layer '" +:+ layer_name +:+ "' does not support style '" +:+ style +:+ "'".


(** The CRS and SRS values that a layer element declares itself. *)
Definition declared_crs (element : Element) : gset string :=
  list_to_set (omap (λ e, upper <$> text e)
                    (findall "CRS" element ++ findall "SRS" element)).

(** Every CRS and SRS child of the layer has a text and every Style child
    has a Name, and so for the layers below. *)
Fixpoint layer_ok (element : Element) : bool :=
  match element with
  | Elem _ _ _ cs =>
      forallb (λ e, bool_decide (is_Some (text e)))
              (findall "CRS" element ++ findall "SRS" element)
      && forallb (λ e, bool_decide (is_Some (find "Name" e))) (findall "Style" element)
      && forallb (λ sl, if decide (tag sl = "Layer") then layer_ok sl else true) cs
  end.

(** The state after [test_zoom(zoom)] fetched [u] and found it reachable
    or not. *)
Definition probed (zoom : Z) (u : string) (ok : bool) (st : probes) : probes :=
  {| tested_zooms := tested_zooms st ∪ {[zoom]};
     zoom_success := if ok then zoom_success st ++ [zoom] else zoom_success st;
     zoom_failures := if ok then zoom_failures st else zoom_failures st ++ [zoom];
     fetched := fetched st ++ [u] |}.

(** Each zoom that [test_zoom] classified was classified once, and is in
    [tested_zooms]. *)
Definition once (st : probes) : Prop :=
  NoDup (zoom_success st ++ zoom_failures st)
  ∧ ∀ z, z ∈ zoom_success st ++ zoom_failures st → z ∈ tested_zooms st.

(** ** A concrete environment

    Simple stand-ins for the collaborators, for running the checks on
    concrete sources: the URL is cut at its first question mark, a query
    is cut at [&] and [=] (and, as [parse_qsl] does, a field with a blank
    value is left out), a template is filled by replacing [{name}].  The
    server and the XML reader are given as tables. *)

Fixpoint cut (c : ascii) (s : string) : string * string :=
  match s with
  | EmptyString => (EmptyString, EmptyString)
  | String a s' =>
      if Ascii.eqb a c then (EmptyString, s')
      else let r := cut c s' in (String a r.1, r.2)
  end.

Definition demo_parse_qsl (q : string) : list (string * string) :=
  filter (λ kv, kv.2 ≠ EmptyString) (cut "=" <$> split "&" q).

Definition demo_urlencode (args : list (string * string)) : string :=
  join "&" ((λ kv, kv.1 +:+ "=" +:+ kv.2) <$> args).

Definition demo_format (t : string) (ps : list (string * pyval)) : result string :=
  Ok (fold_left (λ acc kv,
        replace ("{" +:+ kv.1 +:+ "}")
                match kv.2 with VStr v => v | VInt n => str_int n end acc) ps t).

Definition demo_str_float (q : Q) : string :=
  let r := Qred q in
  if (Z.pos (Qden r) =? 2)%Z
  then (if (Qnum r <? 0)%Z then "-" else "") +:+ str_int (Z.abs (Qnum r) / 2) +:+ ".5"
  else str_int (Qnum r / Z.pos (Qden r)) +:+ ".0".

Definition demo_env (server : string → result response)
    (reader : string → option Element) : Env := {|
  validators_url := λ _, true;
  urlparse := λ u, {| scheme := ""; netloc := ""; path := (cut "?" u).1;
                      params := ""; query := (cut "?" u).2; fragment := "" |};
  parse_qsl := demo_parse_qsl;
  urlencode := demo_urlencode;
  urlunparse := λ p, path p +:+ "?" +:+ query p;
  requests_get := server;
  iterparse := reader;
  representative_point := λ _, Ok (0 # 1, 0 # 1);
  mercantile_tile := λ _ _ z, Ok (2 ^ z / 2, 2 ^ z / 3)%Z;
  str_format := demo_format;
  str_float := demo_str_float
|}.

(** A table from texts to what is found under them. *)
Fixpoint table {A : Type} (rows : list (string * A)) (k : string) : option A :=
  match rows with
  | [] => None
  | (k', a) :: rows' => if String.eqb k k' then Some a else table rows' k
  end.

(** A server that answers the URLs of [pages] with status 200 and their
    text, and any other URL with status 404 and an error page. *)
Definition serve (pages : list (string * string)) (u : string) : result response :=
  match table pages u with
  | Some body => Ok {| status_code := 200; resp_text := body |}
  | None => Ok {| status_code := 404; resp_text := "Not Found" |}
  end.

(** *** Capabilities documents *)

Definition leaf (t x : string) : Element := Elem t [] (Some x) [].

(** Two layers directly under [Capability], each with one CRS of its own:
<<
<WMS_Capabilities version="1.3.0"><Capability>
  <Layer><Name>a</Name><CRS>EPSG:4326</CRS></Layer>
  <Layer><Name>b</Name><CRS>EPSG:3857</CRS></Layer>
</Capability></WMS_Capabilities>
>> *)
Definition two_top_layers : Element :=
  Elem "WMS_Capabilities" [("version", "1.3.0")] None
    [Elem "Capability" [] None
       [Elem "Layer" [] None [leaf "Name" "a"; leaf "CRS" "EPSG:4326"];
        Elem "Layer" [] None [leaf "Name" "b"; leaf "CRS" "EPSG:3857"]]].

(** A layer whose style has a title and no name:
<<
<WMS_Capabilities version="1.3.0"><Capability>
  <Layer><Name>a</Name><Style><Title>t</Title></Style></Layer>
</Capability></WMS_Capabilities>
>> *)
Definition nameless_style : Element :=
  Elem "WMS_Capabilities" [("version", "1.3.0")] None
    [Elem "Capability" [] None
       [Elem "Layer" [] None
          [leaf "Name" "a"; Elem "Style" [] None [leaf "Title" "t"]]]].

(** One root layer with two named children, a style and a format:
<<
<WMS_Capabilities version="1.3.0"><Capability>
  <Request><GetMap><Format>image/png</Format></GetMap></Request>
  <Layer><CRS>EPSG:4326</CRS>
    <Layer><Name>a</Name><CRS>epsg:3857</CRS>
      <Style><Name>s</Name><Title>S</Title></Style></Layer>
    <Layer><Name>b</Name><SRS>EPSG:25832</SRS></Layer>
  </Layer>
</Capability></WMS_Capabilities>
>> *)
Definition small_capabilities : Element :=
  Elem "WMS_Capabilities" [("version", "1.3.0")] None
    [Elem "Capability" [] None
       [Elem "Request" [] None [Elem "GetMap" [] None [leaf "Format" "image/png"]];
        Elem "Layer" [] None
          [leaf "CRS" "EPSG:4326";
           Elem "Layer" [] None
             [leaf "Name" "a"; leaf "CRS" "epsg:3857";
              Elem "Style" [] None [leaf "Name" "s"; leaf "Title" "S"]];
           Elem "Layer" [] None [leaf "Name" "b"; leaf "SRS" "EPSG:25832"]]]].

Definition small_capabilities_xml : string :=
  "<WMS_Capabilities version='1.3.0'><Capability><Request><GetMap><Format>image/png</Format></GetMap></Request><Layer><CRS>EPSG:4326</CRS><Layer><Name>a</Name><CRS>epsg:3857</CRS><Style><Name>s</Name><Title>S</Title></Style></Layer><Layer><Name>b</Name><SRS>EPSG:25832</SRS></Layer></Layer></Capability></WMS_Capabilities>".

Definition two_top_layers_xml : string :=
  "<WMS_Capabilities version='1.3.0'><Capability><Layer><Name>a</Name><CRS>EPSG:4326</CRS></Layer><Layer><Name>b</Name><CRS>EPSG:3857</CRS></Layer></Capability></WMS_Capabilities>".

Definition nameless_style_xml : string :=
  "<WMS_Capabilities version='1.3.0'><Capability><Layer><Name>a</Name><Style><Title>t</Title></Style></Layer></Capability></WMS_Capabilities>".

Definition demo_reader : string → option Element :=
  table [(small_capabilities_xml, small_capabilities);
         (two_top_layers_xml, two_top_layers);
         (nameless_style_xml, nameless_style)].

(** *** WMS sources *)

Definition wms_source (u : string) : source :=
  {| url := u; available_projections := Some ["EPSG:4326"];
     min_zoom := None; max_zoom := None; geometry := None |}.

(** A server that gives its capabilities to the request without a
    version. *)
Definition plain_server : string → result response :=
  serve [("https://example.org/wms?service=WMS&request=GetCapabilities",
          small_capabilities_xml)].



(** Layer [zz] is not advertised; [a] is, without a style [bad]. *)
Definition unknown_layer_source : source :=
  wms_source "https://example.org/wms?FORMAT=image/png&VERSION=1.3.0&REQUEST=GetMap&LAYERS=a,zz&STYLES=bad,&CRS={proj}&WIDTH={width}&HEIGHT={height}&BBOX={bbox}".


(** Three layers and the styles [,,]. *)
Definition three_layers_source : source :=
  wms_source "https://example.org/wms?FORMAT=image/png&VERSION=1.3.0&REQUEST=GetMap&LAYERS=a,b,zz&STYLES=,,&CRS={proj}&WIDTH={width}&HEIGHT={height}&BBOX={bbox}".


(** *** TMS sources *)

Definition tms_source (u : string) (lo hi : Z) : source :=
  {| url := u; available_projections := None;
     min_zoom := Some lo; max_zoom := Some hi; geometry := None |}.

Definition tile_template : string := "https://tiles.example.org/{zoom}/{x}/{y}.png".

(** A tile server with tiles at zooms 7 and 10 only. *)
Definition sparse_tiles : string → result response :=
  serve [("https://tiles.example.org/7/64/42.png", "png");
         ("https://tiles.example.org/10/512/341.png", "png")].

(** A tile server with a tile at zoom 5. *)
Definition zoom5_tiles : string → result response :=
  serve [("https://tiles.example.org/5/16/10.png", "png")].

(** ** The rest of the script *)

(** *** dict_raise_on_duplicates

    The hook that [json.load] calls with the members of each object, keys
    in document order.  It raises jsonschema's [ValidationError]; the
    message holds the [repr] of the key, Python's own, which is a variable
    here. *)

Inductive loaded (A : Type) :=
  | Loaded (a : A)
  | ValidationError (message : string).
Arguments Loaded {A} a.
Arguments ValidationError {A} message.

Section Loading.
Variable repr : string → string.

Fixpoint dict_raise_on_duplicates_from (d : gmap string json)
    (ordered_pairs : list (string * json)) : loaded (gmap string json) :=
  match ordered_pairs with
  | [] => Loaded d
  | (k, v) :: rest =>
      if bool_decide (is_Some (d !! k))
      then ValidationError ("duplicate key: " +:+ repr k)
      else dict_raise_on_duplicates_from (<[k := v]> d) rest
  end.

Definition dict_raise_on_duplicates (ordered_pairs : list (string * json))
  : loaded (gmap string json) :=
  dict_raise_on_duplicates_from ∅ ordered_pairs.

End Loading.

(** The [repr] of a string of letters: the string between single quotes. *)
Definition repr_plain (k : string) : string := "'" +:+ k +:+ "'".

(** *** check_wms_endpoint, check_wmts and the choice of the check *)

(** [WebMapTileService(url)] of owslib: the exception it raises, if it
    raises. *)
Class WmtsClient := {
  WebMapTileService : string → option exn
}.

(** An outcome with no message. *)
Definition silent (urls : list string) : outcome :=
  {| good_msgs := []; warning_msgs := []; error_msgs := [];
     requested := urls; uncaught := None |}.

Section OtherChecks.
Context `{Env} `{WmtsClient}.

Definition check_wms_endpoint (src : source) : outcome :=
  let wms_url := url src in
  match requests_get wms_url with
  | Raise e =>
      {| good_msgs := []; warning_msgs := [];
         error_msgs := ["Exception: " +:+ str_exn e];
         requested := [wms_url]; uncaught := None |}
  | Ok r =>
      match parse_wms iterparse (resp_text r) with
      | Ok _ => silent [wms_url]
      | Raise e =>
          {| good_msgs := []; warning_msgs := [];
             error_msgs := ["Exception: " +:+ str_exn e];
             requested := [wms_url]; uncaught := None |}
      end
  end.

Definition check_wmts (src : source) : outcome :=
  match WebMapTileService (url src) with
  | Some e =>
      {| good_msgs := []; warning_msgs := [];
         error_msgs := ["Exception: " +:+ str_exn e];
         requested := []; uncaught := None |}
  | None => silent []
  end.

(** [# Check imagery type]: the [if]/[elif] chain on
    [source['properties']['type']]. *)
Definition check_imagery_type (type : string) (src : source) : outcome :=
  if String.eqb type "tms" then check_tms src
  else if String.eqb type "wms" then check_wms src
  else if String.eqb type "wms_endpoint" then check_wms_endpoint src
  else if String.eqb type "wmts" then check_wmts src
  else {| good_msgs := [];
          warning_msgs := ["Imagery type " +:+ type +:+ " is currently not checked."];
          error_msgs := []; requested := []; uncaught := None |}.
End OtherChecks.

(** *** Notions used in the statements *)

(** [element] with every tag put in the namespace [ns], as ElementTree
    writes it: [{ns}tag]. *)
Fixpoint qualify (ns : string) (element : Element) : Element :=
  match element with
  | Elem t a x cs => Elem ("{" +:+ ns +:+ "}" +:+ t) a x (map (qualify ns) cs)
  end.

(** Every value of every set has the property [D]. *)
Definition all_from (D : string → Prop) (h : list (gset string)) : Prop :=
  Forall (λ s : gset string, ∀ x, x ∈ s → D x) h.

(** The style dict that the style loop makes of a [Style] element with a
    [Name]. *)
Definition style_of (e : Element) : option style :=
  (λ el, {| style_Title := text <$> find "Title" e; style_Name := text el |})
    <$> find "Name" e.

(** The number of messages of an outcome. *)
Definition messages (o : outcome) : nat :=
  List.length (good_msgs o) + List.length (warning_msgs o) + List.length (error_msgs o).


(** The outcome [o] is the one error [m], after requests for the tiles
    of [zooms], in this order, and no other request. *)
Definition one_error_after `{Env} (e : tms_env) (m : string) (zooms : list Z)
    (o : outcome) : Prop :=
  good_msgs o = [] ∧ warning_msgs o = [] ∧ error_msgs o = [m] ∧ uncaught o = None
  ∧ Forall2 (λ z u, query_url e z = Ok u) zooms (requested o).

(** *** More sources and documents *)

(** What [parse_wms] returns for [small_capabilities]. *)
Definition small_wms : wms :=
  match parse_root small_capabilities with
  | Ok w => w
  | Raise _ => {| version := ""; wms_layers := ∅; formats := []; wms_heap := [] |}
  end.

(** A sublayer with one CRS of its own, in lower case. *)
Definition sublayer_a : Element :=
  Elem "Layer" [] None [leaf "Name" "a"; leaf "CRS" "epsg:3857"].

(** The state after [parse_layer] on [sublayer_a] below a layer whose set,
    at address 0, holds EPSG:4326. *)
Definition after_sublayer_a : pstate :=
  match parse_layer sublayer_a 1 ∅
          {| heap := [{["EPSG:4326"]}; {["EPSG:4326"]}]; layers := ∅ |} with
  | Ok st => st
  | Raise _ => {| heap := []; layers := ∅ |}
  end.

(** Capabilities with a [Format] element without text:
<<
<WMS_Capabilities version='1.3.0'><Capability>
  <Request><GetMap><Format>image/png</Format><Format/></GetMap></Request>
  <Layer><Name>a</Name><CRS>EPSG:4326</CRS></Layer>
</Capability></WMS_Capabilities>
>> *)
Definition empty_format : Element :=
  Elem "WMS_Capabilities" [("version", "1.3.0")] None
    [Elem "Capability" [] None
       [Elem "Request" [] None
          [Elem "GetMap" [] None [leaf "Format" "image/png"; Elem "Format" [] None []]];
        Elem "Layer" [] None [leaf "Name" "a"; leaf "CRS" "EPSG:4326"]]].

Definition empty_format_xml : string :=
  "<WMS_Capabilities version='1.3.0'><Capability><Request><GetMap><Format>image/png</Format><Format/></GetMap></Request><Layer><Name>a</Name><CRS>EPSG:4326</CRS></Layer></Capability></WMS_Capabilities>".

(** A server that answers the request without a version with
    [empty_format_xml], and the reader for it. *)
Definition empty_format_env : Env :=
  demo_env
    (serve [("https://example.org/wms?service=WMS&request=GetCapabilities",
             empty_format_xml)])
    (table [(empty_format_xml, empty_format)]).

(** One layer and no [styles]. *)
Definition one_layer_source : source :=
  wms_source "https://example.org/wms?FORMAT=image/png&VERSION=1.3.0&REQUEST=GetMap&LAYERS=a&CRS={proj}&WIDTH={width}&HEIGHT={height}&BBOX={bbox}".

(** The environment of a [tms] template without a switch, at the fixed
    point. *)
Definition tile_env : tms_env :=
  {| centroid := (61 # 10, 496 # 10); tms_url := tile_template; parameters := [] |}.

(** [mercantile.tile(6.1, 49.6, zoom)] for the zooms from 0 to 22: the
    tile of the fixed point.  The column is the floor of
    [(6.1 / 360 + 1 / 2) * 2 ^ zoom]; for the row, the fraction
    0.34086621927... is given with 40 binary places. *)
Definition fixed_point_tile (zoom : Z) : Z * Z :=
  ((1861 * 2 ^ zoom) / 3600, (374786371610 * 2 ^ zoom) / 2 ^ 40)%Z.

(** The concrete environment with the tiles of the fixed point. *)
Definition tiles_env (server : string → result response) : Env := {|
  validators_url := λ _, true;
  urlparse := λ u, {| scheme := ""; netloc := ""; path := (cut "?" u).1;
                      params := ""; query := (cut "?" u).2; fragment := "" |};
  parse_qsl := demo_parse_qsl;
  urlencode := demo_urlencode;
  urlunparse := λ p, path p +:+ "?" +:+ query p;
  requests_get := server;
  iterparse := demo_reader;
  representative_point := λ _, Ok (0 # 1, 0 # 1);
  mercantile_tile := λ _ _ z, Ok (fixed_point_tile z);
  str_format := demo_format;
  str_float := demo_str_float
|}.

(** A tile server with the tiles of the fixed point at zooms 7 and 10
    only. *)
Definition tiles_at_7_and_10 : string → result response :=
  serve [("https://tiles.example.org/7/66/43.png", "png");
         ("https://tiles.example.org/10/529/349.png", "png")].

(** A tile server with the tile of the fixed point at zoom 7 only. *)
Definition tiles_at_7 : string → result response :=
  serve [("https://tiles.example.org/7/66/43.png", "png")].



(** One layer and a blank [STYLES=]. *)
Definition blank_styles_source : source :=
  wms_source "https://example.org/wms?FORMAT=image/png&VERSION=1.3.0&REQUEST=GetMap&LAYERS=a&STYLES=&CRS={proj}&WIDTH={width}&HEIGHT={height}&BBOX={bbox}".

(** * Properties *)

#[local] Set Warnings "-clear-no-such-hyp".

Ltac in_singleton H := apply list_elem_of_singleton in H as ->.
Ltac in_nil H := by apply elem_of_nil in H.

(** A message that starts differently from both style messages is not
    one of them. *)
Ltac not_style :=
  let H := fresh in
  intros [H | (? & ? & H)]; cbn in H; discriminate H.

(** ** parse_wms *)

(** X2: how [parse_wms] fails before it reads the layers, and what it
    returns when it returns. *)
Lemma parse_wms_outcomes (iterparse : string → option Element) (xml : string) :
  (iterparse xml = None →
   parse_wms iterparse xml = Raise (RuntimeError "Could not parse XML."))
  ∧ (∀ root, iterparse xml = Some root →
       let root_tag := rpartition_last "}" (tag (strip_prefixes root)) in
       (root_tag ∈ ["ServiceExceptionReport"; "ServiceException"] →
        parse_wms iterparse xml = Raise (RuntimeError "WMS service exception"))
       ∧ (root_tag ∉ ["ServiceExceptionReport"; "ServiceException"] →
          root_tag ∉ ["WMT_MS_Capabilities"; "WMS_Capabilities"] →
          parse_wms iterparse xml
          = Raise (RuntimeError ("No Capabilities Element present: Root tag: " +:+ root_tag)))
       ∧ (root_tag ∈ ["WMT_MS_Capabilities"; "WMS_Capabilities"] →
          attrib_get "version" (attrib root) = None →
          parse_wms iterparse xml = Raise (RuntimeError "WMS version cannot be identified.")))
  ∧ (∀ w, parse_wms iterparse xml = Ok w →
       ∃ root, iterparse xml = Some root
               ∧ attrib_get "version" (attrib root) = Some (version w)).
Proof.
  unfold parse_wms. split; [by intros ->|split].
  - intros root Hroot. rewrite Hroot. cbv zeta. unfold parse_root.
    set (root_tag := rpartition_last "}" (tag (strip_prefixes root))).
    assert (attrib (strip_prefixes root) = attrib root) as -> by by destruct root.
    split; [|split].
    + intros Hin. by rewrite bool_decide_eq_true_2.
    + intros Hout1 Hout2. by rewrite !bool_decide_eq_false_2.
    + intros Hin Hversion.
      rewrite bool_decide_eq_false_2, bool_decide_eq_true_2, Hversion; [done..|].
      revert Hin. rewrite !elem_of_cons, !elem_of_nil.
      intros [-> | [-> | []]]; intros [[=] | [[=] | []]].
  - intros w. destruct (iterparse xml) as [root|]; [|discriminate].
    unfold parse_root.
    assert (attrib (strip_prefixes root) = attrib root) as -> by by destruct root.
    repeat case_bool_decide; cbn [negb]; try discriminate.
    destruct (attrib_get "version" (attrib root)) as [v|] eqn:Hv; [|discriminate].
    destruct (parse_top_layers _ _) as [st|]; [|discriminate].
    intros [= <-]. by exists root.
Qed.

Lemma Element_children_ind (P : Element → Prop) :
  (∀ t a x cs, Forall P cs → P (Elem t a x cs)) → ∀ e, P e.
Proof.
  intros IH. fix rec 1. intros [t a x cs]. apply IH.
  induction cs as [|c cs IHcs]; constructor; [apply rec | exact IHcs].
Qed.

Lemma set_get_add_eq l x h :
  (l < List.length h)%nat → set_get l (set_add l x h) = set_get l h ∪ {[x]}.
Proof.
  intros Hl. unfold set_get, set_add. rewrite list_lookup_alter_eq.
  destruct (lookup_lt_is_Some_2 h l Hl) as [s Hs]. by rewrite Hs.
Qed.

Lemma lookup_set_add_ne l l' x h : l ≠ l' → set_add l x h !! l' = h !! l'.
Proof. intros Hne. unfold set_add. by rewrite list_lookup_alter_ne. Qed.

Lemma length_set_add l x h : List.length (set_add l x h) = List.length h.
Proof. unfold set_add. apply length_alter. Qed.

Lemma add_crs_frame crs es h h' :
  add_crs crs es h = Ok h' →
  List.length h' = List.length h
  ∧ (∀ l, l ≠ crs → h' !! l = h !! l)
  ∧ ((crs < List.length h)%nat →
     set_get crs h' = set_get crs h ∪ list_to_set (omap (λ e, upper <$> text e) es)).
Proof.
  revert h. induction es as [|e es IH]; intros h Hadd; cbn [add_crs] in Hadd.
  - injection Hadd as <-. split; [done|split; [done|]]. intros _. cbn. set_solver.
  - destruct (text e) as [t|] eqn:Ht; [|discriminate].
    destruct (IH _ Hadd) as (Hlen & Hother & Hcrs).
    rewrite length_set_add in *. split; [done|split].
    + intros l Hl. by rewrite Hother, lookup_set_add_ne.
    + intros Hlt. rewrite Hcrs, set_get_add_eq by done.
      cbn [omap list_omap]. rewrite Ht. cbn. set_solver.
Qed.

(** What a call of [parse_layer] does to the sets: it adds the CRS values
    that the element declares to its own set [crs], makes new sets for the
    layers below, and leaves every other set as it was. *)
Lemma parse_layer_frame element : ∀ crs styles st st',
  parse_layer element crs styles st = Ok st' →
  (crs < List.length (heap st))%nat →
  (List.length (heap st) ≤ List.length (heap st'))%nat
  ∧ (∀ l, (l < List.length (heap st))%nat → l ≠ crs → heap st' !! l = heap st !! l)
  ∧ set_get crs (heap st') = set_get crs (heap st) ∪ declared_crs element.
Proof.
  induction element as [t a x cs IH] using Element_children_ind.
  intros crs styles st st' Hparse Hcrs. cbn [parse_layer] in Hparse.
  unfold mbind, result_bind in Hparse.
  destruct (add_crs crs _ (heap st)) as [h|] eqn:Hadd; [|discriminate].
  destruct (add_styles _ styles) as [new_styles|]; [|discriminate].
  destruct (add_crs_frame _ _ _ _ Hadd) as (Hlen & Hother & Hown).
  specialize (Hown Hcrs). fold (declared_crs (Elem t a x cs)) in Hown.
  revert Hparse.
  set (st1 := {| heap := h; layers := _ |}).
  assert (heap st1 = h) as Hst1 by done.
  clearbody st1. revert st1 Hst1.
  assert (∀ st1, (List.length (heap st) ≤ List.length (heap st1))%nat →
      (∀ l, (l < List.length (heap st))%nat → heap st1 !! l = h !! l) →
      (fix sublayers (sls : list Element) (st0 : pstate) {struct sls} : result pstate :=
         match sls with
         | [] => Ok st0
         | sl :: sls' =>
             if decide (tag sl = "Layer")
             then
               let '(c, h') := set_copy crs (heap st0) in
               match parse_layer sl c new_styles {| heap := h'; layers := layers st0 |} with
               | Ok a0 => sublayers sls' a0
               | Raise e => Raise e
               end
             else sublayers sls' st0
         end) cs st1 = Ok st' →
      (List.length (heap st) ≤ List.length (heap st'))%nat
      ∧ (∀ l, (l < List.length (heap st))%nat → heap st' !! l = h !! l)) as Hloop.
  { clear Hadd Hown. induction IH as [|sl sls IHsl _ IHsls]; intros st1 Hle Hsame Hrun.
    - injection Hrun as <-. done.
    - destruct (decide (tag sl = "Layer")); [|by apply (IHsls st1)].
      cbn [set_copy] in Hrun.
      destruct (parse_layer sl _ _ _) as [st2|] eqn:Hsl; [|discriminate].
      apply IHsl in Hsl as (Hlen2 & Hother2 & _); cbn [heap] in *;
        [|rewrite length_app; cbn; lia].
      rewrite length_app in Hlen2. cbn in Hlen2.
      apply (IHsls st2); [lia | | done].
      intros l Hl. rewrite Hother2, lookup_app_l, Hsame by (rewrite ?length_app; lia). done. }
  intros st1 Hst1 Hrun.
  destruct (Hloop st1) as (Hle & Hsame); [rewrite Hst1; lia | | done |].
  { intros l _. by rewrite Hst1. }
  repeat split; [done | |].
  - intros l Hl Hne. by rewrite Hsame, Hother.
  - unfold set_get in *. rewrite Hsame by done. exact Hown.
Qed.

(** X1: descending into a sublayer: the new set starts as a copy of the
    parent's set and ends as that copy with the sublayer's own values
    added, and no set that existed before the descent has changed. *)
Corollary sublayer_crs sl crs styles h ls st' :
  (crs < List.length h)%nat →
  parse_layer sl (set_copy crs h).1 styles
    {| heap := (set_copy crs h).2; layers := ls |} = Ok st' →
  set_get (set_copy crs h).1 (heap st') = set_get crs h ∪ declared_crs sl
  ∧ ∀ l, (l < List.length h)%nat → heap st' !! l = h !! l.
Proof.
  intros Hcrs Hparse. cbn [set_copy fst snd] in *.
  apply parse_layer_frame in Hparse as (_ & Hother & Hown); cbn [heap] in *;
    [|rewrite length_app; cbn; lia].
  split.
  - rewrite Hown. f_equal. unfold set_get at 1.
    by rewrite lookup_app_r, Nat.sub_diag by lia.
  - intros l Hl. rewrite Hother, lookup_app_l by (rewrite ?length_app; lia). done.
Qed.

(** C1 (the code shares one set between the top layers): two layers
    directly under [Capability] declare one CRS each, and [parse_wms]
    gives both layers both CRS values: the default [set()] of
    [parse_layer] is one object, which every top layer writes to. *)
Theorem top_layers_share_the_default_crs_set :
  ∃ w, parse_wms demo_reader two_top_layers_xml = Ok w
       ∧ declared_crs (Elem "Layer" [] None [leaf "Name" "a"; leaf "CRS" "EPSG:4326"])
         = {["EPSG:4326"]}
       ∧ layer_crs w "a" = Some {["EPSG:4326"; "EPSG:3857"]}
       ∧ layer_crs w "b" = Some {["EPSG:4326"; "EPSG:3857"]}
       ∧ CRS <$> wms_layers w !! Some "a" = CRS <$> wms_layers w !! Some "b".
Proof. eexists. split; [reflexivity|]. repeat split; compute_done. Qed.

Lemma add_crs_ok crs es h :
  forallb (λ e, bool_decide (is_Some (text e))) es = true →
  ∃ h', add_crs crs es h = Ok h'.
Proof.
  revert h. induction es as [|e es IH]; intros h Hok; cbn in *; [by eauto|].
  apply andb_prop in Hok as [He Hes].
  apply bool_decide_eq_true in He as [t ->]. by apply IH.
Qed.

Lemma add_styles_ok es styles :
  forallb (λ e, bool_decide (is_Some (find "Name" e))) es = true →
  ∃ styles', add_styles es styles = Ok styles'.
Proof.
  revert styles. induction es as [|e es IH]; intros styles Hok; cbn in *; [by eauto|].
  apply andb_prop in Hok as [He Hes].
  apply bool_decide_eq_true in He as [el ->]. by apply IH.
Qed.

Lemma parse_layer_ok element : ∀ crs styles st,
  layer_ok element = true → ∃ st', parse_layer element crs styles st = Ok st'.
Proof.
  induction element as [t a x cs IH] using Element_children_ind.
  intros crs styles st Hok. cbn [layer_ok] in Hok.
  apply andb_prop in Hok as [[Hcrs Hstyles]%andb_prop Hsub].
  cbn [parse_layer]. unfold mbind, result_bind.
  destruct (add_crs_ok crs _ (heap st) Hcrs) as [h ->].
  destruct (add_styles_ok _ styles Hstyles) as [new_styles ->].
  match goal with
  | |- context [{| heap := h; layers := ?l |}] => generalize {| heap := h; layers := l |}
  end.
  clear Hcrs Hstyles.
  induction IH as [|sl sls IHsl _ IHsls]; intros st1; [by eauto|].
  cbn [forallb] in Hsub. apply andb_prop in Hsub as [Hsl Hsls].
  destruct (decide (tag sl = "Layer")); [|by apply IHsls].
  cbn [set_copy].
  destruct (IHsl (List.length (heap st1)) new_styles
              {| heap := heap st1 ++ [set_get crs (heap st1)]; layers := layers st1 |} Hsl)
    as [st2 ->].
  by apply IHsls.
Qed.

Lemma parse_top_layers_ok tls st :
  forallb layer_ok tls = true → ∃ st', parse_top_layers tls st = Ok st'.
Proof.
  revert st. induction tls as [|tl tls IH]; intros st Hok; cbn in *; [by eauto|].
  apply andb_prop in Hok as [Htl Htls].
  destruct (parse_layer_ok tl 0%nat ∅ st Htl) as [st1 ->]. by apply IH.
Qed.

(** Outside the four failures, [parse_wms] returns, with the root's
    version, when no layer that it reads has a CRS or SRS element without
    text or a Style element without a Name. *)
Lemma parse_wms_returns (iterparse : string → option Element) (xml : string) root v :
  iterparse xml = Some root →
  rpartition_last "}" (tag (strip_prefixes root)) ∈ ["WMT_MS_Capabilities"; "WMS_Capabilities"] →
  attrib_get "version" (attrib root) = Some v →
  forallb layer_ok (find_path "Capability" ["Layer"] (strip_prefixes root)) = true →
  ∃ w, parse_wms iterparse xml = Ok w ∧ version w = v.
Proof.
  intros Hroot Htag Hversion Hok. unfold parse_wms, parse_root. rewrite Hroot.
  assert (attrib (strip_prefixes root) = attrib root) as -> by by destruct root.
  rewrite bool_decide_eq_false_2, bool_decide_eq_true_2, Hversion; [|done|].
  - destruct (parse_top_layers_ok _ {| heap := [∅]; layers := ∅ |} Hok) as [st ->].
    cbn. eauto.
  - revert Htag. rewrite !elem_of_cons, !elem_of_nil.
    intros [-> | [-> | []]]; intros [[=] | [[=] | []]].
Qed.

(** C6 (the code raises a fifth kind of error): a capabilities document
    with the right root and a version, whose one style has no [Name],
    makes [parse_wms] raise [KeyError('Name')], which is none of the four
    errors it raises itself; two of those are shown next to it. *)
Theorem style_without_name_raises_KeyError :
  parse_wms demo_reader nameless_style_xml = Raise (KeyError "Name")
  ∧ parse_wms demo_reader "Not Found" = Raise (RuntimeError "Could not parse XML.")
  ∧ version <$> parse_wms demo_reader small_capabilities_xml = Ok "1.3.0".
Proof. repeat split; vm_compute; reflexivity. Qed.

(** ** Properties of check_wms *)

Lemma has_true k d : has k d = true ↔ is_Some (d !! k).
Proof. unfold has. apply bool_decide_eq_true. Qed.

Lemma has_false k d : has k d = false ↔ d !! k = None.
Proof. unfold has. rewrite bool_decide_eq_false. symmetry. apply eq_None_not_Some. Qed.

Lemma get_Some k d v : d !! k = Some v → get k d = v.
Proof. unfold get. by intros ->. Qed.

Lemma lower_mandatory p : p ∈ mandatory → lower p = p.
Proof.
  unfold mandatory. rewrite !elem_of_cons, elem_of_nil.
  intros [-> | [-> | [-> | [-> | [-> | [-> | [-> | []]]]]]]]; reflexivity.
Qed.

Lemma elem_of_missing_mandatory (args : gmap string string) p :
  p ∈ (list_to_set (filter (λ p, has (lower p) args = false) mandatory) : gset string)
  ↔ p ∈ mandatory ∧ args !! p = None.
Proof.
  rewrite elem_of_list_to_set, list_elem_of_filter, has_false.
  split; intros [H1 H2]; split; try done.
  - by rewrite <- (lower_mandatory p).
  - by rewrite lower_mandatory.
Qed.

Lemma elem_of_missing (args : gmap string string) p :
  p ∈ missing_request_parameters args ↔
    (p ∈ mandatory ∧ args !! p = None)
  ∨ (p = "crs" ∧ args !! "version" = Some "1.3.0" ∧ args !! "crs" = None)
  ∨ (p = "srs" ∧ (∃ v, args !! "version" = Some v ∧ v ≠ "1.3.0")
     ∧ args !! "srs" = None).
Proof.
  unfold missing_request_parameters.
  destruct (args !! "version") as [v|] eqn:Hv.
  - assert (has "version" args = true) as -> by (apply has_true; eauto).
    rewrite (get_Some _ _ _ Hv) || unfold get; rewrite ?Hv; cbn [default andb].
    destruct (String.eqb_spec v "1.3.0") as [-> | Hne]; cbn [negb].
    + destruct (has "crs" args) eqn:Hc; cbn [negb].
      * apply has_true in Hc as [c Hc]. rewrite elem_of_missing_mandatory. naive_solver.
      * apply has_false in Hc. rewrite elem_of_union, elem_of_singleton,
          elem_of_missing_mandatory. naive_solver.
    + destruct (has "srs" args) eqn:Hc; cbn [negb].
      * apply has_true in Hc as [c Hc]. rewrite elem_of_missing_mandatory. naive_solver.
      * apply has_false in Hc. rewrite elem_of_union, elem_of_singleton,
          elem_of_missing_mandatory. naive_solver.
  - assert (has "version" args = false) as -> by (by apply has_false).
    cbn [andb]. rewrite elem_of_missing_mandatory. naive_solver.
Qed.

Lemma wms_args_of_snoc pairs kv :
  wms_args_of (pairs ++ [kv]) = <[lower kv.1 := kv.2]> (wms_args_of pairs).
Proof. unfold wms_args_of. by rewrite fold_left_app. Qed.

Lemma wms_args_of_lookup pairs k :
  wms_args_of pairs !! k = last_value k pairs.
Proof.
  unfold last_value.
  induction pairs as [|kv pairs IH] using rev_ind; [done|].
  rewrite wms_args_of_snoc, filter_app, filter_cons, filter_nil.
  case_decide as Hk.
  - rewrite last_snoc. subst k. by rewrite lookup_insert_eq.
  - rewrite app_nil_r, lookup_insert_ne by done. exact IH.
Qed.

(** The keys of the map: the names of the pairs, in lower case. *)
Lemma wms_args_of_is_Some (pairs : list (string * string)) (k : string) :
  is_Some (wms_args_of pairs !! k) ↔ ∃ n v, (n, v) ∈ pairs ∧ lower n = k.
Proof.
  rewrite wms_args_of_lookup. unfold last_value. rewrite fmap_is_Some.
  split.
  - intros [[n v] Hlast]. apply last_Some_elem_of, list_elem_of_filter in Hlast as [Hn Hin].
    by exists n, v.
  - intros (n & v & Hin & Hn).
    assert ((n, v) ∈ filter (λ kv, lower kv.1 = k) pairs) as Hf
      by by apply list_elem_of_filter.
    destruct (filter _ pairs) as [|x l] eqn:Hl using rev_ind; [by apply elem_of_nil in Hf|].
    rewrite last_snoc. done.
Qed.

Section WmsFacts.
Context `{Env}.

Lemma url_errors_not_style u m : m ∈ url_errors u → ¬ style_error m.
Proof.
  unfold url_errors. intros Hm.
  apply elem_of_app in Hm as [Hm | Hm].
  - destruct (validators_url _); [in_nil Hm|]. in_singleton Hm. not_style.
  - destruct (0 <? _)%nat; [|in_nil Hm]. in_singleton Hm. not_style.
Qed.

Lemma check_layers_not_style la w m : m ∈ check_layers la w → ¬ style_error m.
Proof.
  unfold check_layers. intros Hm.
  destruct (0 <? _)%nat; [|in_nil Hm]. in_singleton Hm. not_style.
Qed.

Lemma check_crs_not_style src la w m : m ∈ check_crs src la w → ¬ style_error m.
Proof.
  unfold check_crs. intros Hm. destruct (available_projections src).
  - apply list_elem_of_In, in_flat_map in Hm as (n & _ & Hm).
    apply list_elem_of_In in Hm. unfold check_layer_crs in Hm.
    destruct (wms_layers w !! Some n); [|in_nil Hm].
    destruct (0 <? _)%nat; [|in_nil Hm]. in_singleton Hm. not_style.
  - in_singleton Hm. not_style.
Qed.

Lemma negotiate_exceptions parts args todo exc req r exc' req' m :
  negotiate parts args todo exc req = (r, exc', req') →
  m ∈ exc' → m ∈ exc ∨ ∃ v e, m = exception_msg v e.
Proof.
  revert exc req. induction todo as [|v todo IH]; intros exc req Hn Hm; simpl in Hn.
  - injection Hn as <- <- <-. by left.
  - destruct (attempt parts args v) as [w | e].
    + injection Hn as <- <- <-. by left.
    + apply IH in Hn; [|done]. destruct Hn as [Hn | Hn]; [|by right].
      apply elem_of_app in Hn as [Hn | Hn]; [by left|].
      in_singleton Hn. right. eauto.
Qed.

Lemma exception_msg_not_style v e : ¬ style_error (exception_msg v e).
Proof. unfold exception_msg. not_style. Qed.

(** Where an error message of the checks after the negotiation comes
    from. *)
Lemma cross_check_errors src args w o m :
  m ∈ error_msgs (cross_check src args w o) →
  m ∈ error_msgs o
  ∨ (∃ la, args !! "layers" = Some la
           ∧ (m ∈ check_layers la w ∨ m ∈ check_styles args la w
              ∨ m ∈ check_crs src la w))
  ∨ ∃ x, m = "Format '" +:+ x.
Proof.
  unfold cross_check. intros Hm.
  assert (m ∈ error_msgs o
          ∨ m ∈ match args !! "layers" with
                | Some la => check_layers la w ++ check_styles args la w ++ check_crs src la w
                | None => []
                end
          ∨ ∃ x, m = "Format '" +:+ x) as Hcases.
  { destruct (join_items _ _ _) as [fs | e]; simpl in Hm.
    - rewrite !elem_of_app in Hm. destruct Hm as [Hm | [Hm | Hm]]; [tauto | tauto |].
      destruct (bool_decide _); [in_nil Hm|]. in_singleton Hm. right. right. eauto.
    - rewrite !elem_of_app in Hm. tauto. }
  destruct Hcases as [Hm' | [Hm' | Hm']]; [by left | | by right; right].
  right. left. destruct (args !! "layers") as [la|]; [|in_nil Hm'].
  exists la. split; [done|]. rewrite !elem_of_app in Hm'. tauto.
Qed.

Lemma cross_check_layer_errors src args w o la m :
  args !! "layers" = Some la →
  m ∈ check_layers la w ++ check_styles args la w ++ check_crs src la w →
  m ∈ error_msgs (cross_check src args w o).
Proof.
  intros Hla Hm. unfold cross_check. rewrite Hla.
  destruct (join_items _ _ _); simpl; rewrite !elem_of_app in *; tauto.
Qed.

Lemma cross_check_requested src args w o :
  requested (cross_check src args w o) = requested o.
Proof. unfold cross_check. by destruct (join_items _ _ _). Qed.

(** A style error of [check_wms] comes from [check_styles], run on the
    negotiated capabilities. *)
Lemma style_error_origin src m :
  m ∈ error_msgs (check_wms src) → style_error m →
  ∃ la w exc reqs,
    args_of_url (url src) !! "layers" = Some la
    ∧ negotiate (urlparse (url src)) (args_of_url (url src)) versions [] []
      = (Some w, exc, reqs)
    ∧ m ∈ check_styles (args_of_url (url src)) la w.
Proof.
  unfold check_wms. intros Hm Hstyle.
  destruct (0 <? size _)%nat; cbn [error_msgs] in Hm.
  { apply elem_of_app in Hm as [Hm | Hm].
    - by apply url_errors_not_style in Hm.
    - in_singleton Hm. exfalso. revert Hstyle. unfold missing_msg. not_style. }
  destruct (negotiate _ _ _ _ _) as [[[w|] exc] reqs] eqn:Hn; cbn [error_msgs] in Hm.
  - apply cross_check_errors in Hm as [Hm | [(la & Hla & Hm) | (x & ->)]];
      cbn [error_msgs] in *.
    + by apply url_errors_not_style in Hm.
    + destruct Hm as [Hm | [Hm | Hm]].
      * by apply check_layers_not_style in Hm.
      * by exists la, w, exc, reqs.
      * by apply check_crs_not_style in Hm.
    + exfalso. revert Hstyle. not_style.
  - apply elem_of_app in Hm as [Hm | Hm].
    + by apply url_errors_not_style in Hm.
    + destruct (negotiate_exceptions _ _ _ _ _ _ _ _ m Hn Hm) as [Hnil | (v & e & ->)].
      * in_nil Hnil.
      * by apply exception_msg_not_style in Hstyle.
Qed.

Lemma check_style_empty w layer_name : check_style w layer_name "" = [].
Proof. unfold check_style. by destruct (wms_layers w !! Some layer_name). Qed.

Lemma check_styles_absent args la w :
  args !! "styles" = None → check_styles args la w = [].
Proof. unfold check_styles. by intros ->. Qed.

Lemma check_styles_two_commas args la w :
  args !! "styles" = Some ",," → List.length (split "," la) = 3 →
  check_styles args la w = [].
Proof.
  unfold check_styles. intros -> Hlen. rewrite Hlen.
  destruct (split "," la) as [|a [|b [|c [|]]]]; try discriminate Hlen.
  cbn. by rewrite !check_style_empty.
Qed.

(** For three layers the guard compares the value with three commas, so
    [,,] is not stopped there: it is its three empty tokens that are
    skipped. *)
Remark two_commas_pass_the_guard :
  String.eqb ",," (str_repeat "," 3) = false ∧ split "," ",," = [""; ""; ""].
Proof. by split. Qed.

(** What [check_styles] reports. *)
Lemma check_styles_elem args la w m :
  m ∈ check_styles args la w →
  ∃ style, args !! "styles" = Some style
    ∧ (m = "Not the same number of styles and layers."
       ∧ List.length (split "," style) ≠ List.length (split "," la)
       ∨ ∃ layer_name s l,
           (layer_name, s) ∈ zip (split "," la) (split "," style)
           ∧ wms_layers w !! Some layer_name = Some l
           ∧ s ≠ "" ∧ Styles l !! Some s = None
           ∧ m = "Layer '" +:+ layer_name +:+ "' does not support style '" +:+ s +:+ "'").
Proof.
  unfold check_styles. destruct (args !! "styles") as [style|]; [|intros Hm; in_nil Hm].
  intros Hm. exists style. split; [done|].
  destruct (_ || _); [in_nil Hm|].
  destruct (Nat.eqb_spec (List.length (split "," style)) (List.length (split "," la)))
    as [Heq | Hne]; cbn [negb] in Hm.
  - right. apply list_elem_of_In, in_flat_map in Hm as ([layer_name s] & Hin & Hm).
    apply list_elem_of_In in Hin, Hm. unfold check_style in Hm. cbn [fst snd] in Hm.
    destruct (wms_layers w !! Some layer_name) as [l|] eqn:Hl; [|in_nil Hm].
    destruct (0 <? String.length s)%nat eqn:Hs; [|in_nil Hm].
    destruct (bool_decide_reflect (Styles l !! Some s = None)) as [Hn|]; [|in_nil Hm].
    cbn [andb] in Hm. in_singleton Hm.
    exists layer_name, s, l. repeat split; try done.
    intros ->. discriminate Hs.
  - left. in_singleton Hm. done.
Qed.

Lemma missing_empty_size args :
  missing_request_parameters args = ∅ →
  (0 <? size (missing_request_parameters args))%nat = false.
Proof. by intros ->. Qed.



Lemma negotiate_requested parts args todo exc req r exc' req' :
  negotiate parts args todo exc req = (r, exc', req') →
  ∃ k, req' = req ++ (get_GetCapabilities_url parts args <$> take k todo)
       ∧ (todo ≠ [] → k ≠ 0%nat).
Proof.
  revert exc req. induction todo as [|v todo IH]; intros exc req Hn; cbn [negotiate] in Hn.
  - injection Hn as <- <- <-. exists 0%nat. by rewrite app_nil_r.
  - destruct (attempt parts args v).
    + injection Hn as <- <- <-. by exists 1%nat.
    + destruct (IH _ _ Hn) as (k & -> & _). exists (S k).
      by rewrite <- app_assoc.
Qed.

Lemma check_wms_requested_take (src : source) :
  ∃ k, requested (check_wms src)
       = get_GetCapabilities_url (urlparse (url src)) (args_of_url (url src))
           <$> take k versions
       ∧ (k = 0%nat ↔ missing_request_parameters (args_of_url (url src)) ≠ ∅).
Proof.
  unfold check_wms. set (args := args_of_url (url src)).
  destruct (decide (missing_request_parameters args = ∅)) as [Hempty | Hne].
  - rewrite missing_empty_size by done.
    destruct (negotiate _ _ _ _ _) as [[[w|] exc] reqs] eqn:Hn;
      destruct (negotiate_requested _ _ _ _ _ _ _ _ Hn) as (k & -> & Hk);
      exists k; rewrite ?cross_check_requested; cbn [requested app];
      (split; [done|]); split; try done; intros ->; by destruct Hk.
  - assert ((0 <? size (missing_request_parameters args))%nat = true) as ->.
    { apply Nat.ltb_lt, Nat.neq_0_lt_0, size_non_empty_iff.
      intros Hempty. apply Hne. by apply leibniz_equiv. }
    by exists 0%nat.
Qed.

Lemma join_items_raises sep i l :
  (∃ e, join_items sep i l = Raise e) ↔ None ∈ l.
Proof.
  revert i. induction l as [|[x|] l IH]; intros i; cbn [join_items].
  - split; [by intros [e [=]] | by intros ?%elem_of_nil].
  - unfold mbind, result_bind. rewrite elem_of_cons, <- (IH (i + 1)%Z).
    destruct (join_items sep (i + 1) l) as [rest|e].
    + split; [by intros [e [=]] | by intros [[=] | [e [=]]]].
    + split; [by eauto | by eauto].
  - split; [intros _; apply list_elem_of_here | by eauto].
Qed.

Lemma none_unsupported (P : string → Prop) `{∀ x, Decision (P x)} (l : list string) :
  (0 <? size (list_to_set (filter P l) : gset string))%nat = false
  ↔ ∀ x, x ∈ l → ¬ P x.
Proof.
  rewrite Nat.ltb_ge, Nat.le_0_r, size_empty_iff. split.
  - intros Hempty x Hx HP. apply (not_elem_of_empty (C := gset string) x).
    rewrite <- Hempty. apply elem_of_list_to_set, list_elem_of_filter. done.
  - intros Hall x. split; [|by intros ?%not_elem_of_empty].
    intros [HP Hx]%elem_of_list_to_set%list_elem_of_filter. by destruct (Hall x).
Qed.

(** The guard of the style check, as a proposition. *)
Lemma style_guard style n :
  String.eqb style "default" || String.eqb style "" || String.eqb style (str_repeat "," n)
  = true
  ↔ style = "default" ∨ style = "" ∨ style = str_repeat "," n.
Proof. rewrite !orb_true_iff, !String.eqb_eq. tauto. Qed.

(** The error messages of [check_wms] once the negotiation has given
    capabilities. *)
Lemma check_wms_layer_errors src la w exc reqs m :
  missing_request_parameters (args_of_url (url src)) = ∅ →
  args_of_url (url src) !! "layers" = Some la →
  negotiate (urlparse (url src)) (args_of_url (url src)) versions [] [] = (Some w, exc, reqs) →
  m ∈ check_layers la w ++ check_styles (args_of_url (url src)) la w ++ check_crs src la w →
  m ∈ error_msgs (check_wms src).
Proof.
  intros Hmissing Hla Hn Hm. unfold check_wms.
  rewrite missing_empty_size by done. rewrite Hn.
  by apply cross_check_layer_errors with la.
Qed.

(** A style error of [check_wms] is one of [check_styles] for the
    [layers] value and the negotiated capabilities. *)
Lemma style_error_in_check_styles src la w exc reqs m :
  args_of_url (url src) !! "layers" = Some la →
  negotiate (urlparse (url src)) (args_of_url (url src)) versions [] [] = (Some w, exc, reqs) →
  m ∈ error_msgs (check_wms src) → style_error m →
  m ∈ check_styles (args_of_url (url src)) la w.
Proof.
  intros Hla Hn Hm Hstyle.
  destruct (style_error_origin src m Hm Hstyle) as (la' & w' & exc' & reqs' & Hla' & Hn' & Hin).
  rewrite Hla in Hla'. injection Hla' as <-.
  rewrite Hn in Hn'. by injection Hn' as <- _ _.
Qed.

(** [check_wms] once the negotiation has given capabilities. *)
Lemma check_wms_negotiated src w exc reqs :
  missing_request_parameters (args_of_url (url src)) = ∅ →
  negotiate (urlparse (url src)) (args_of_url (url src)) versions [] [] = (Some w, exc, reqs) →
  check_wms src
  = cross_check src (args_of_url (url src)) w
      {| good_msgs := []; warning_msgs := styles_warning (args_of_url (url src));
         error_msgs := url_errors (url src); requested := reqs; uncaught := None |}.
Proof.
  intros Hmissing Hn. unfold check_wms.
  rewrite missing_empty_size by done. by rewrite Hn.
Qed.




End WmsFacts.

Section WmsClaims.
Context `{Env}.




(** C5: with the styles [,,] and a [layers] parameter that names
    exactly three layers, the style check reports nothing, whatever the
    layer names and the capabilities, and no error message of
    [check_wms] is a style message. *)
Theorem styles_two_commas_three_layers (src : source) :
  args_of_url (url src) !! "styles" = Some ",," →
  List.length (split "," (get "layers" (args_of_url (url src)))) = 3 →
  (∀ w, check_styles (args_of_url (url src))
                     (get "layers" (args_of_url (url src))) w = [])
  ∧ ∀ m, m ∈ error_msgs (check_wms src) → ¬ style_error m.
Proof.
  intros Hstyles Hlen. split.
  - intros w. by apply check_styles_two_commas.
  - intros m Hm Hstyle.
    destruct (style_error_origin src m Hm Hstyle) as (la & w & exc & reqs & Hla & _ & Hin).
    rewrite (get_Some _ _ _ Hla) in Hlen.
    rewrite (check_styles_two_commas _ _ w Hstyles Hlen) in Hin. in_nil Hin.
Qed.

(** C9 (amended): without a [styles] parameter no style message is
    emitted.  A style message comes from the style check on the
    negotiated capabilities, with both [layers] and [styles] present; a
    message for a (layer, style) pair names a requested layer that the
    capabilities advertise.  With [styles] present the check runs,
    whether or not every requested layer is advertised: a value that is
    [default], empty or as many commas as there are layers gives no
    style message; otherwise a number of styles other than the number
    of layers gives the one message on the numbers and no other style
    message, and with equal numbers every non-empty style that its
    layer, an advertised one, does not have is reported. *)
Theorem style_check_when_styles_present (src : source) :
  let args := args_of_url (url src) in
  let errors := error_msgs (check_wms src) in
  let mismatch := "Not the same number of styles and layers." in
  let unsupported := λ layer_name s,
    "Layer '" +:+ layer_name +:+ "' does not support style '" +:+ s +:+ "'" in
  (args !! "styles" = None → ∀ m, m ∈ errors → ¬ style_error m)
  ∧ (∀ m, m ∈ errors → style_error m →
     ∃ la style w exc reqs,
       args !! "layers" = Some la ∧ args !! "styles" = Some style
       ∧ negotiate (urlparse (url src)) args versions [] [] = (Some w, exc, reqs)
       ∧ (m = mismatch
          ∧ List.length (split "," style) ≠ List.length (split "," la)
          ∨ ∃ layer_name s l,
              (layer_name, s) ∈ zip (split "," la) (split "," style)
              ∧ wms_layers w !! Some layer_name = Some l
              ∧ s ≠ "" ∧ Styles l !! Some s = None
              ∧ m = unsupported layer_name s))
  ∧ (∀ la style w exc reqs,
       missing_request_parameters args = ∅ →
       args !! "layers" = Some la → args !! "styles" = Some style →
       negotiate (urlparse (url src)) args versions [] [] = (Some w, exc, reqs) →
       let layers := split "," la in
       let styles := split "," style in
       let exempt := style = "default" ∨ style = ""
                     ∨ style = str_repeat "," (List.length layers) in
       (exempt → ∀ m, m ∈ errors → ¬ style_error m)
       ∧ (¬ exempt → List.length styles ≠ List.length layers →
          mismatch ∈ errors ∧ ∀ m, m ∈ errors → style_error m → m = mismatch)
       ∧ (¬ exempt → List.length styles = List.length layers →
          (mismatch ∉ errors)
          ∧ ∀ i layer_name s l,
              layers !! i = Some layer_name → styles !! i = Some s →
              wms_layers w !! Some layer_name = Some l →
              s ≠ "" → Styles l !! Some s = None →
              unsupported layer_name s ∈ errors)).
Proof.
  intros args errors mismatch unsupported. split; [|split].
  - intros Hnone m Hm Hstyle.
    destruct (style_error_origin src m Hm Hstyle) as (la & w & exc & reqs & _ & _ & Hin).
    fold args in Hin. rewrite check_styles_absent in Hin by done. in_nil Hin.
  - intros m Hm Hstyle.
    destruct (style_error_origin src m Hm Hstyle) as (la & w & exc & reqs & Hla & Hn & Hin).
    destruct (check_styles_elem _ _ _ _ Hin) as (style & Hs & Hcases).
    by exists la, style, w, exc, reqs.
  - intros la style w exc reqs Hmissing Hla Hstyles Hn layers styles exempt.
    assert (∀ m, m ∈ check_styles args la w → m ∈ errors) as Hreported.
    { intros m Hm. apply (check_wms_layer_errors src la w exc reqs); [done..|].
      rewrite !elem_of_app. tauto. }
    assert (∀ m, m ∈ errors → style_error m → m ∈ check_styles args la w) as Horigin.
    { intros m Hm Hstyle. by apply (style_error_in_check_styles src la w exc reqs). }
    revert Hreported Horigin. unfold check_styles. rewrite Hstyles.
    fold layers styles.
    destruct (_ || _ || _) eqn:Hguard.
    { apply style_guard in Hguard. intros _ Horigin. split; [|by split].
      intros _ m Hm Hstyle. specialize (Horigin m Hm Hstyle). in_nil Horigin. }
    assert (¬ exempt) as Hnot.
    { intros Hex. apply style_guard in Hex. subst layers. congruence. }
    intros Hreported Horigin. split; [done|].
    destruct (Nat.eqb_spec (List.length styles) (List.length layers)) as [Heq | Hne];
      cbn [negb] in *.
    + split; [done|]. intros _ _. split.
      * intros Hm. assert (style_error mismatch) as Hstyle by by left.
        specialize (Horigin _ Hm Hstyle).
        apply list_elem_of_In, in_flat_map in Horigin as ([layer_name s] & _ & Hin).
        apply list_elem_of_In in Hin. unfold check_style in Hin. cbn [fst snd] in Hin.
        destruct (wms_layers w !! Some layer_name); [|in_nil Hin].
        destruct (_ && _); [|in_nil Hin].
        apply list_elem_of_singleton in Hin. discriminate Hin.
      * intros i layer_name s l Hi Hsi Hl Hs Hunadvertised.
        apply Hreported, list_elem_of_In, in_flat_map.
        exists (layer_name, s). split.
        -- apply list_elem_of_In, (list_elem_of_lookup_2 _ i).
           apply lookup_zip_with_Some. eauto.
        -- unfold check_style. cbn [fst snd]. rewrite Hl.
           rewrite bool_decide_eq_true_2 by done.
           destruct s; [done|]. cbn. by left.
    + split; [|done]. intros _ _. split.
      * apply Hreported. by apply list_elem_of_singleton.
      * intros m Hm Hstyle. specialize (Horigin m Hm Hstyle).
        by apply list_elem_of_singleton in Horigin.
Qed.
End WmsClaims.

(** ** Properties of check_tms *)

Section TmsFacts.
Context `{Env}.
Local Open Scope Z_scope.

Lemma reachable_inv e zoom b :
  reachable e zoom = Ok b → ∃ u, query_url e zoom = Ok u ∧ test_url u = b.
Proof.
  unfold reachable. destruct (query_url e zoom) as [u|ex]; [|discriminate].
  intros [= <-]. by exists u.
Qed.

Lemma test_zoom_query e zoom st u :
  query_url e zoom = Ok u →
  test_zoom e zoom st = (probed zoom u (test_url u) st, Ok (test_url u)).
Proof. unfold test_zoom, probed. intros ->. by destruct (test_url u). Qed.

Lemma test_zoom_reachable e zoom st b :
  reachable e zoom = Ok b →
  ∃ u, test_zoom e zoom st = (probed zoom u b st, Ok b).
Proof.
  intros (u & Hu & <-)%reachable_inv. exists u. by apply test_zoom_query.
Qed.

Lemma widen_skip e zoom zooms st :
  zoom ∈ tested_zooms st → widen e (zoom :: zooms) st = widen e zooms st.
Proof. intros Hin. cbn [widen]. by rewrite bool_decide_eq_true_2. Qed.

Lemma widen_probe e zoom zooms st u b :
  zoom ∉ tested_zooms st → test_zoom e zoom st = (probed zoom u b st, Ok b) →
  widen e (zoom :: zooms) st
  = if b then (probed zoom u b st, Ok tt) else widen e zooms (probed zoom u b st).
Proof.
  intros Hin Ht. cbn [widen]. rewrite bool_decide_eq_false_2 by done.
  rewrite Ht. by destruct b.
Qed.

Lemma elem_of_range a b z : z ∈ range a b ↔ a ≤ z < b.
Proof.
  unfold range. rewrite list_elem_of_fmap. split.
  - intros (i & -> & Hi). apply elem_of_seq in Hi. lia.
  - intros Hz. exists (Z.to_nat (z - a)). split; [lia|].
    apply elem_of_seq. lia.
Qed.

Lemma test_zoom_once e z st st' r :
  z ∉ tested_zooms st → once st → test_zoom e z st = (st', r) →
  once st' ∧ tested_zooms st' = tested_zooms st ∪ {[z]}.
Proof.
  intros Hz [Hnd Hin] Ht. unfold test_zoom in Ht.
  assert (z ∉ zoom_success st ++ zoom_failures st) as Hfresh by (intros ?%Hin; done).
  rewrite elem_of_app in Hfresh.
  apply NoDup_app in Hnd as (Hs & Hsf & Hf).
  destruct (query_url e z) as [u|ex]; [destruct (test_url u)|];
    injection Ht as <- <-; (split; [split|done]); cbn.
  - rewrite <- app_assoc. apply NoDup_app. repeat split; [done| |].
    + intros x Hx [Hxz | Hxf]%elem_of_cons; [subst; tauto | by apply (Hsf x)].
    + apply NoDup_cons. tauto.
  - intros x. rewrite !elem_of_app, list_elem_of_singleton, elem_of_union, elem_of_singleton.
    intros [[Hx | ->] | Hx]; [left; apply Hin; rewrite elem_of_app; tauto | by right
                             | left; apply Hin; rewrite elem_of_app; tauto].
  - rewrite app_assoc. apply NoDup_app. repeat split.
    + by apply NoDup_app.
    + intros x Hx ->%list_elem_of_singleton. rewrite elem_of_app in Hx. tauto.
    + apply NoDup_singleton.
  - intros x. rewrite !elem_of_app, list_elem_of_singleton, elem_of_union, elem_of_singleton.
    intros [Hx | [Hx | ->]]; [left; apply Hin; rewrite elem_of_app; tauto
                             | left; apply Hin; rewrite elem_of_app; tauto | by right].
  - by apply NoDup_app.
  - intros x Hx. apply elem_of_union. left. by apply Hin.
Qed.

Lemma widen_once e zooms st st' r :
  once st → widen e zooms st = (st', r) →
  once st' ∧ tested_zooms st' ⊆ tested_zooms st ∪ list_to_set zooms.
Proof.
  revert st. induction zooms as [|z zooms IH]; intros st Honce Hw; cbn [widen] in Hw.
  - injection Hw as <- <-. split; [done|set_solver].
  - destruct (bool_decide_reflect (z ∈ tested_zooms st)) as [Hin | Hout].
    + destruct (IH _ Honce Hw) as [? ?]. split; [done|set_solver].
    + destruct (test_zoom e z st) as [st1 r1] eqn:Ht.
      destruct (test_zoom_once _ _ _ _ _ Hout Honce Ht) as [Honce1 Htested].
      destruct r1 as [[|] | ex].
      * injection Hw as <- <-. split; [done|set_solver].
      * destruct (IH _ Honce1 Hw) as [? ?]. split; [done|set_solver].
      * injection Hw as <- <-. split; [done|set_solver].
Qed.

Lemma once_no_probes : once no_probes.
Proof. split; [constructor|]. intros z Hz. by apply elem_of_nil in Hz. Qed.

(** X14: with [min_zoom < max_zoom] no zoom is classified twice. *)
Lemma probe_zooms_once e min_zoom max_zoom st r :
  min_zoom < max_zoom →
  probe_zooms e min_zoom max_zoom no_probes = (st, r) →
  NoDup (zoom_success st ++ zoom_failures st).
Proof.
  intros Hlt Hp. unfold probe_zooms, mbind, probing_bind in Hp.
  assert (∃ st1 r1, min_phase e min_zoom max_zoom no_probes = (st1, r1)
                    ∧ once st1 ∧ max_zoom ∉ tested_zooms st1) as (st1 & r1 & Hmin & Honce1 & Hmax).
  { unfold min_phase, mbind, probing_bind.
    destruct (test_zoom e min_zoom no_probes) as [st0 r0] eqn:Ht.
    destruct (test_zoom_once _ _ _ _ _ (not_elem_of_empty _) once_no_probes Ht)
      as [Honce0 Htested0].
    assert (max_zoom ∉ tested_zooms st0) as Hmax0.
    { rewrite Htested0. cbn. set_solver by lia. }
    destruct r0 as [[|] | ex]; [by eauto | | by eauto].
    destruct (widen e _ st0) as [st1 r1] eqn:Hw.
    destruct (widen_once _ _ _ _ _ Honce0 Hw) as [Honce1 Hsub].
    exists st1, r1. repeat split; try apply Honce1.
    intros Hin. apply Hsub in Hin. apply elem_of_union in Hin as [Hin | Hin]; [done|].
    apply elem_of_list_to_set, elem_of_range in Hin. lia. }
  rewrite Hmin in Hp. destruct r1 as [[] | ex]; [|injection Hp as <- <-; apply Honce1].
  unfold max_phase, mbind, probing_bind in Hp.
  destruct (test_zoom e max_zoom st1) as [st2 r2] eqn:Ht.
  destruct (test_zoom_once _ _ _ _ _ Hmax Honce1 Ht) as [Honce2 _].
  destruct r2 as [[|] | ex]; try (injection Hp as <- <-; apply Honce2).
  by destruct (widen_once _ _ _ _ _ Honce2 Hp) as [[? _] _].
Qed.

(** With [min_zoom = max_zoom] the zoom is fetched twice. *)
Lemma probe_zooms_twice e zoom u :
  query_url e zoom = Ok u → test_url u = true →
  fetched (probe_zooms e zoom zoom no_probes).1 = [u; u].
Proof.
  intros Hu Ht. unfold probe_zooms, min_phase, max_phase, mbind, probing_bind.
  rewrite !(test_zoom_query _ _ _ u Hu), Ht. cbn.
  rewrite !(test_zoom_query _ _ _ u Hu), Ht. done.
Qed.
Lemma test_zoom_raises e zoom st ex :
  query_url e zoom = Raise ex →
  test_zoom e zoom st
  = ({| tested_zooms := tested_zooms st ∪ {[zoom]}; zoom_success := zoom_success st;
        zoom_failures := zoom_failures st; fetched := fetched st |}, Raise ex).
Proof. unfold test_zoom. by intros ->. Qed.

Lemma widen_raises e zoom zooms st ex :
  zoom ∉ tested_zooms st → query_url e zoom = Raise ex →
  widen e (zoom :: zooms) st
  = ({| tested_zooms := tested_zooms st ∪ {[zoom]}; zoom_success := zoom_success st;
        zoom_failures := zoom_failures st; fetched := fetched st |}, Raise ex).
Proof.
  intros Hin Hq. cbn [widen]. rewrite bool_decide_eq_false_2 by done.
  by rewrite (test_zoom_raises _ _ _ ex).
Qed.

Lemma reachable_query e zoom u : query_url e zoom = Ok u → reachable e zoom = Ok (test_url u).
Proof. unfold reachable. by intros ->. Qed.

Lemma reachable_raises e zoom ex : query_url e zoom = Raise ex → reachable e zoom = Raise ex.
Proof. unfold reachable. by intros ->. Qed.

End TmsFacts.

Section TmsClaims.
Context `{Env}.
Local Open Scope Z_scope.

(** An outcome of [check_tms], once the state of the probing is known. *)
Ltac tms_outcome :=
  unfold one_error_after; cbn [good_msgs warning_msgs error_msgs uncaught requested
                               classify exception_outcome fst snd];
  repeat match goal with
         | |- _ ∧ _ => split
         | |- Forall2 _ _ _ => repeat constructor; assumption
         | |- _ => first [ reflexivity | compute_done | by vm_compute ]
         end.

(** The cases of a statement on the probing, once the state is known. *)
Ltac tms_cases :=
  repeat match goal with |- _ ∧ _ => split end;
  intros; simplify_eq; tms_outcome.

(** The tested zooms are not 5, 6, 7, 10 when zoom 9 is among them. *)
Ltac tms_not_four Heq :=
  exfalso; apply (f_equal (λ s : gset Z, bool_decide (9 ∈ s))) in Heq;
  vm_compute in Heq; discriminate Heq.

(** C3 (amended): with [min_zoom] 5 and [max_zoom] 10, zooms 5 and 6
    unreachable and zoom 7 reachable, the first phase tests exactly the
    zooms 5, 6, 7.  The second phase then tests [max_zoom], and after it
    9 and then 8 as long as the zoom before was unreachable.  So the
    tested zooms contain 5, 6, 7 and 10, lie between 5 and 10, and are
    those four exactly when zoom 10 is not found unreachable; they are
    5, 6, 7, 9, 10 when 10 is unreachable and 9 is not, and 5 to 10
    when 10 and 9 are unreachable.  The outcome is one error message:
    the one that names the unreachable zooms, or, when the probe of 10,
    9 or 8 raises, the one of the exception.  The tiles are requested in
    the order 5, 6, 7, 10, 9, 8. *)
Theorem widening_from_min_zoom (src : source) c t ps :
  centroid_of src = Ok c →
  contains "{z}" (url src) = false → contains "{apikey}" (url src) = false →
  resolve_switch (url src) = Ok (t, ps) →
  min_zoom src = Some 5 → max_zoom src = Some 10 →
  let e := {| centroid := c; tms_url := t; parameters := ps |} in
  reachable e 5 = Ok false → reachable e 6 = Ok false → reachable e 7 = Ok true →
  let first := (min_phase e 5 10 no_probes).1 in
  let st := (probe_zooms e 5 10 no_probes).1 in
  (tested_zooms first = {[5; 6; 7]}
   ∧ zoom_failures first = [5; 6] ∧ zoom_success first = [7])
  ∧ ({[5; 6; 7; 10]} ⊆ tested_zooms st ∧ tested_zooms st ⊆ {[5; 6; 7; 8; 9; 10]})
  ∧ (tested_zooms st = {[5; 6; 7; 10]} ↔ reachable e 10 ≠ Ok false)
  ∧ (reachable e 10 = Ok true →
     tested_zooms st = {[5; 6; 7; 10]}
     ∧ zoom_failures st = [5; 6] ∧ zoom_success st = [7; 10]
     ∧ one_error_after e "Zoom level 5,6 not reachable. (Tested: 5,6,7,10)"
         [5; 6; 7; 10] (check_tms src))
  ∧ (reachable e 10 = Ok false → reachable e 9 = Ok true →
     tested_zooms st = {[5; 6; 7; 9; 10]}
     ∧ zoom_failures st = [5; 6; 10] ∧ zoom_success st = [7; 9]
     ∧ one_error_after e "Zoom level 5,6,10 not reachable. (Tested: 5,6,7,9,10)"
         [5; 6; 7; 10; 9] (check_tms src))
  ∧ (reachable e 10 = Ok false → reachable e 9 = Ok false → reachable e 8 = Ok true →
     tested_zooms st = {[5; 6; 7; 8; 9; 10]}
     ∧ zoom_failures st = [5; 6; 10; 9] ∧ zoom_success st = [7; 8]
     ∧ one_error_after e "Zoom level 5,6,9,10 not reachable. (Tested: 5,6,7,8,9,10)"
         [5; 6; 7; 10; 9; 8] (check_tms src))
  ∧ (reachable e 10 = Ok false → reachable e 9 = Ok false → reachable e 8 = Ok false →
     tested_zooms st = {[5; 6; 7; 8; 9; 10]}
     ∧ zoom_failures st = [5; 6; 10; 9; 8] ∧ zoom_success st = [7]
     ∧ one_error_after e "Zoom level 5,6,8,9,10 not reachable. (Tested: 5,6,7,8,9,10)"
         [5; 6; 7; 10; 9; 8] (check_tms src))
  ∧ (∀ ex, reachable e 10 = Raise ex →
     tested_zooms st = {[5; 6; 7; 10]}
     ∧ one_error_after e ("Exception: " +:+ str_exn ex) [5; 6; 7] (check_tms src))
  ∧ (∀ ex, reachable e 10 = Ok false → reachable e 9 = Raise ex →
     tested_zooms st = {[5; 6; 7; 9; 10]}
     ∧ one_error_after e ("Exception: " +:+ str_exn ex) [5; 6; 7; 10] (check_tms src))
  ∧ (∀ ex, reachable e 10 = Ok false → reachable e 9 = Ok false →
     reachable e 8 = Raise ex →
     tested_zooms st = {[5; 6; 7; 8; 9; 10]}
     ∧ one_error_after e ("Exception: " +:+ str_exn ex) [5; 6; 7; 10; 9] (check_tms src)).
Proof.
  intros Hc Hz Hkey Hsw Hmin Hmax e H5 H6 H7 first st.
  destruct (reachable_inv _ _ _ H5) as (u5 & Q5 & F5).
  destruct (reachable_inv _ _ _ H6) as (u6 & Q6 & F6).
  destruct (reachable_inv _ _ _ H7) as (u7 & Q7 & F7).
  set (st3 := probed 7 u7 true (probed 6 u6 false (probed 5 u5 false no_probes))).
  assert (min_phase e 5 10 no_probes = (st3, Ok tt)) as Hphase1.
  { unfold min_phase, mbind, probing_bind.
    rewrite (test_zoom_query _ _ _ u5 Q5), F5.
    change (range (5 + 1) (Z.min (5 + 4) 10)) with [6; 7; 8].
    rewrite (widen_probe _ _ _ _ u6 false)
      by (compute_done || by rewrite (test_zoom_query _ _ _ u6 Q6), F6).
    rewrite (widen_probe _ _ _ _ u7 true)
      by (compute_done || by rewrite (test_zoom_query _ _ _ u7 Q7), F7).
    done. }
  assert (check_tms src = match probe_zooms e 5 10 no_probes with
                          | (st, Ok _) => classify st
                          | (st, Raise ex) => exception_outcome st ex
                          end) as Hcheck.
  { unfold check_tms. by rewrite Hc, Hz, Hkey, Hsw, Hmin, Hmax. }
  assert (probe_zooms e 5 10 no_probes = max_phase e 5 10 st3) as Hprobe.
  { unfold probe_zooms, mbind, probing_bind. by rewrite Hphase1. }
  subst first st. rewrite Hcheck, Hprobe, Hphase1. clear Hcheck Hprobe Hphase1.
  split; [by repeat split|].
  unfold max_phase, mbind, probing_bind.
  change (range_down 10 (Z.max (10 - 4) 5)) with [10; 9; 8; 7].
  destruct (query_url e 10) as [u10|ex10] eqn:Q10.
  2:{ rewrite (test_zoom_raises _ _ _ ex10 Q10), (reachable_raises _ _ _ Q10).
      split; [split; compute_done|].
      split; [split; [intros _ ?; simplify_eq | intros _; compute_done]|].
      tms_cases. }
  rewrite (test_zoom_query _ _ _ u10 Q10), (reachable_query _ _ _ Q10).
  destruct (test_url u10) eqn:F10.
  { split; [split; compute_done|].
    split; [split; [intros _ ?; simplify_eq | intros _; compute_done]|].
    tms_cases. }
  rewrite widen_skip by compute_done.
  destruct (query_url e 9) as [u9|ex9] eqn:Q9.
  2:{ rewrite (widen_raises _ _ _ _ ex9) by (done || compute_done).
      rewrite (reachable_raises _ _ _ Q9).
      split; [split; compute_done|].
      split; [split; [intros Heq; tms_not_four Heq | intros Hne; by destruct Hne]|].
      tms_cases. }
  rewrite (widen_probe _ _ _ _ u9 (test_url u9))
    by (compute_done || by apply test_zoom_query).
  rewrite (reachable_query _ _ _ Q9).
  destruct (test_url u9) eqn:F9.
  { split; [split; compute_done|].
    split; [split; [intros Heq; tms_not_four Heq | intros Hne; by destruct Hne]|].
    tms_cases. }
  destruct (query_url e 8) as [u8|ex8] eqn:Q8.
  2:{ rewrite (widen_raises _ _ _ _ ex8) by (done || compute_done).
      rewrite (reachable_raises _ _ _ Q8).
      split; [split; compute_done|].
      split; [split; [intros Heq; tms_not_four Heq | intros Hne; by destruct Hne]|].
      tms_cases. }
  rewrite (widen_probe _ _ _ _ u8 (test_url u8))
    by (compute_done || by apply test_zoom_query).
  rewrite (reachable_query _ _ _ Q8).
  destruct (test_url u8) eqn:F8.
  { split; [split; compute_done|].
    split; [split; [intros Heq; tms_not_four Heq | intros Hne; by destruct Hne]|].
    tms_cases. }
  rewrite widen_skip by compute_done. cbn [widen].
  split; [split; compute_done|].
  split; [split; [intros Heq; tms_not_four Heq | intros Hne; by destruct Hne]|].
  tms_cases.
Qed.

(** C8 (amended): the row that replaces the placeholder is [tile.y] for
    [{y}], [2^zoom - 1 - tile.y] for [{-y}] at a zoom of 0 or more, and
    [2^(zoom-1) - 1 - tile.y] for [{!y}] at a zoom of 1 or more, all
    three as [int]s; and this number, printed, is what [test_zoom] puts
    in the place of the placeholder. *)
Theorem y_substitution (e : tms_env) (zoom x y : Z) :
  mercantile_tile (centroid e).1 (centroid e).2 zoom = Ok (x, y) →
  let fill := λ placeholder row,
    str_format (replace placeholder (str_int row) (tms_url e))
               (parameters e ++ [("x", VInt x); ("zoom", VInt zoom)]) in
  (y_value y_plain zoom y = PyInt y
   ∧ (0 ≤ zoom → y_value y_minus zoom y = PyInt (2 ^ zoom - 1 - y))
   ∧ (1 ≤ zoom → y_value y_bang zoom y = PyInt (2 ^ (zoom - 1) - 1 - y)))
  ∧ (contains "{-y}" (tms_url e) = true → 0 ≤ zoom →
     query_url e zoom = fill "{-y}" (2 ^ zoom - 1 - y))
  ∧ (contains "{-y}" (tms_url e) = false → contains "{!y}" (tms_url e) = true →
     1 ≤ zoom →
     query_url e zoom = fill "{!y}" (2 ^ (zoom - 1) - 1 - y))
  ∧ (contains "{-y}" (tms_url e) = false → contains "{!y}" (tms_url e) = false →
     query_url e zoom = fill "{y}" y).
Proof.
  intros Htile fill.
  assert (0 ≤ zoom → y_value y_minus zoom y = PyInt (2 ^ zoom - 1 - y)) as Hminus.
  { intros Hz. unfold y_value, py_pow2. by rewrite (proj2 (Z.leb_le 0 zoom) Hz). }
  assert (1 ≤ zoom → y_value y_bang zoom y = PyInt (2 ^ (zoom - 1) - 1 - y)) as Hbang.
  { intros Hz. unfold y_value, py_pow2.
    by rewrite (proj2 (Z.leb_le 0 (zoom - 1)) ltac:(lia)). }
  split; [done|].
  unfold query_url, y_token_of, mbind, result_bind. rewrite Htile. cbn [fst snd].
  repeat split.
  - intros -> Hz. cbn [y_placeholder]. by rewrite Hminus.
  - intros -> -> Hz. cbn [y_placeholder]. by rewrite Hbang.
  - by intros -> ->.
Qed.
End TmsClaims.

(** ** The checks on concrete sources *)

(** C4 (the code probes a zoom twice): with [min_zoom = max_zoom = 5] the
    same tile URL is fetched twice and zoom 5 is entered twice in
    [zoom_success]: [test_zoom(max_zoom)] does not look into
    [tested_zooms], as the two loops do. *)
Theorem equal_zooms_are_probed_twice :
  let o := @check_tms (demo_env zoom5_tiles demo_reader) (tms_source tile_template 5 5) in
  requested o = ["https://tiles.example.org/5/16/10.png";
                 "https://tiles.example.org/5/16/10.png"]
  ∧ good_msgs o = ["Zoom levels reachable. (Tested: 5)"]
  ∧ zoom_success
      (@probe_zooms (demo_env zoom5_tiles demo_reader)
         {| centroid := (61 # 10, 496 # 10); tms_url := tile_template; parameters := [] |}
         5 5 no_probes).1 = [5; 5]%Z.
Proof. repeat split; vm_compute; reflexivity. Qed.

(** C3, as stated, fails: zooms 5 and 6 unreachable, zoom 7 reachable, and
    the tested zooms are 5, 6, 7 and 10, not 5, 6, 7. *)
Lemma tested_zooms_include_max_zoom :
  let E := tiles_env tiles_at_7_and_10 in
  let e := {| centroid := (61 # 10, 496 # 10); tms_url := tile_template; parameters := [] |} in
  @reachable E e 5 = Ok false ∧ @reachable E e 6 = Ok false ∧ @reachable E e 7 = Ok true
  ∧ tested_zooms (@probe_zooms E e 5 10 no_probes).1 ≠ {[5; 6; 7]}%Z
  ∧ @check_tms E (tms_source tile_template 5 10)
    = {| good_msgs := []; warning_msgs := [];
         error_msgs := ["Zoom level 5,6 not reachable. (Tested: 5,6,7,10)"];
         requested := ["https://tiles.example.org/5/16/10.png";
                       "https://tiles.example.org/6/33/21.png";
                       "https://tiles.example.org/7/66/43.png";
                       "https://tiles.example.org/10/529/349.png"];
         uncaught := None |}.
Proof.
  cbv zeta. repeat split; try (vm_compute; reflexivity).
  intros Heq. assert (10 ∉ ({[5; 6; 7]} : gset Z))%Z as Hn by compute_done.
  apply Hn. rewrite <- Heq. compute_done.
Qed.

(** The widening on a tile server with a tile at zoom 7 only: the first
    phase tests the zooms 5, 6 and 7, the second 10, 9 and 8. *)
Lemma widening_from_min_zoom_witness :
  let E := tiles_env tiles_at_7 in
  let e := {| centroid := (61 # 10, 496 # 10); tms_url := tile_template; parameters := [] |} in
  tested_zooms (@min_phase E e 5 10 no_probes).1 = {[5; 6; 7]}%Z
  ∧ tested_zooms (@probe_zooms E e 5 10 no_probes).1 = {[5; 6; 7; 8; 9; 10]}%Z
  ∧ zoom_failures (@probe_zooms E e 5 10 no_probes).1 = [5; 6; 10; 9; 8]%Z
  ∧ @one_error_after E e "Zoom level 5,6,8,9,10 not reachable. (Tested: 5,6,7,8,9,10)"
      [5; 6; 7; 10; 9; 8]%Z (@check_tms E (tms_source tile_template 5 10)).
Proof.
  intros E e.
  destruct (widening_from_min_zoom (H := E) (tms_source tile_template 5 10)
              (61 # 10, 496 # 10) tile_template [])
    as ((Hfirst & _) & _ & _ & _ & _ & _ & Hnone & _); [vm_compute; reflexivity..|].
  destruct Hnone as (Htested & Hfailed & _ & Hout); [vm_compute; reflexivity..|].
  exact (conj Hfirst (conj Htested (conj Hfailed Hout))).
Defined.

(** C8, as stated, fails at zoom 0: for [{!y}] the script computes
    [2 ** -1 - 1 - 0], the float [-0.5], and puts it in the URL. *)
Lemma bang_row_at_zoom_0_is_a_float :
  y_value y_bang 0 0 = PyFloat (-1 # 2)
  ∧ (∀ n, y_value y_bang 0 0 ≠ PyInt n)
  ∧ ¬ (∀ zoom tile_y, y_value y_bang zoom tile_y = PyInt (2 ^ (zoom - 1) - 1 - tile_y))
  ∧ @query_url (demo_env zoom5_tiles demo_reader)
      {| centroid := (61 # 10, 496 # 10);
         tms_url := "https://t.example.org/{zoom}/{x}/{!y}.png"; parameters := [] |} 0
    = Ok "https://t.example.org/0/0/-0.5.png".
Proof.
  repeat split; try (vm_compute; reflexivity).
  - intros n. vm_compute. discriminate.
  - intros Hall. specialize (Hall 0%Z 0%Z). vm_compute in Hall. discriminate.
Qed.

(** The row of a [{-y}] template at zoom 5 and tile (16, 10): 32 - 1 - 10. *)
Lemma y_substitution_witness :
  @query_url (demo_env zoom5_tiles demo_reader)
    {| centroid := (61 # 10, 496 # 10);
       tms_url := "https://t.example.org/{zoom}/{x}/{-y}.png"; parameters := [] |} 5
  = Ok "https://t.example.org/5/16/21.png".
Proof.
  destruct (y_substitution (H := demo_env zoom5_tiles demo_reader)
              {| centroid := (61 # 10, 496 # 10);
                 tms_url := "https://t.example.org/{zoom}/{x}/{-y}.png"; parameters := [] |}
              5 16 10 eq_refl) as (_ & Hminus & _).
  rewrite Hminus; [vm_compute; reflexivity | vm_compute; reflexivity | lia].
Defined.




(** The styles [,,] on a source with three layers, one of them not
    advertised: no style message. *)
Lemma styles_two_commas_three_layers_witness :
  Forall (λ m, ¬ style_error m)
    (error_msgs (@check_wms (demo_env plain_server demo_reader) three_layers_source)).
Proof.
  apply Forall_forall.
  refine (proj2 (styles_two_commas_three_layers (H := demo_env plain_server demo_reader)
                   three_layers_source _ _)); vm_compute; reflexivity.
Defined.

(** C9, as stated, fails: layer [zz] is not advertised, and the style
    check still reports the style [bad] of layer [a]. *)
Lemma style_error_with_unadvertised_layer :
  let E := demo_env plain_server demo_reader in
  (∃ w, parse_root small_capabilities = Ok w ∧ wms_layers w !! Some "zz" = None)
  ∧ error_msgs (@check_wms E unknown_layer_source)
    = ["Layers 'zz' not advertised by WMS GetCapabilities request.";
       "Layer 'a' does not support style 'bad'"]
  ∧ style_error "Layer 'a' does not support style 'bad'".
Proof.
  cbv zeta. split; [|split].
  - eexists. split; [reflexivity|]. vm_compute. reflexivity.
  - vm_compute. reflexivity.
  - right. by exists "a", "bad".
Qed.

(** The style check runs on the same source: the style [bad] of the
    advertised layer [a] is reported, beside the unadvertised layer
    [zz]. *)
Lemma style_check_when_styles_present_witness :
  "Layer 'a' does not support style 'bad'"
  ∈ error_msgs (@check_wms (demo_env plain_server demo_reader) unknown_layer_source).
Proof.
  destruct (style_check_when_styles_present (H := demo_env plain_server demo_reader)
              unknown_layer_source) as (_ & _ & Hcases).
  edestruct (Hcases "a,zz" "bad,") as (_ & _ & Hpairs); [vm_compute; reflexivity..|].
  destruct Hpairs as [_ Hpairs].
  - intros [Hd | [Hd | Hd]]; discriminate Hd.
  - reflexivity.
  - eapply (Hpairs 0%nat "a" "bad"); [reflexivity | reflexivity | vm_compute; reflexivity
                                     | discriminate | compute_done].
Defined.



(** ** More on parse_wms *)

Lemma split_cons sep s : ∃ x r, split sep s = x :: r.
Proof.
  induction s as [|c s (x & r & IH)]; cbn; [by eauto|].
  destruct (Ascii.eqb c sep); [by eauto|]. rewrite IH. eauto.
Qed.

Lemma last_split_cons sep c s :
  List.last (split sep (String c s)) EmptyString
  = if Ascii.eqb c sep then List.last (split sep s) EmptyString
    else match split sep s with
         | [x] => String c x
         | _ => List.last (split sep s) EmptyString
         end.
Proof.
  cbn [split]. destruct (split_cons sep s) as (x & r & Hs). rewrite Hs.
  destruct (Ascii.eqb c sep); [done|]. by destruct r.
Qed.

Lemma split_app_sep sep a t :
  ∃ x y r, split sep (a +:+ String sep t) = x :: y :: r.
Proof.
  induction a as [|c a (x & y & r & IH)].
  - change ("" +:+ String sep t) with (String sep t). cbn [split].
    rewrite Ascii.eqb_refl. destruct (split_cons sep t) as (y & r & ->). eauto.
  - change (String c a +:+ String sep t) with (String c (a +:+ String sep t)).
    cbn [split]. destruct (Ascii.eqb c sep); rewrite IH; eauto.
Qed.

(** What precedes the last separator does not count. *)
Lemma rpartition_last_app sep a t :
  rpartition_last sep (a +:+ String sep t) = rpartition_last sep t.
Proof.
  unfold rpartition_last. induction a as [|c a IH].
  - change ("" +:+ String sep t) with (String sep t).
    rewrite last_split_cons, Ascii.eqb_refl. done.
  - change (String c a +:+ String sep t) with (String c (a +:+ String sep t)).
    rewrite last_split_cons. destruct (split_app_sep sep a t) as (x & y & r & Hs).
    rewrite Hs in *. by destruct (Ascii.eqb c sep).
Qed.

Lemma strip_prefixes_qualify ns element :
  strip_prefixes (qualify ns element) = strip_prefixes element.
Proof.
  induction element as [t a x cs IH] using Element_children_ind. cbn.
  f_equal.
  - change ("{" +:+ ns +:+ "}" +:+ t) with (("{" +:+ ns) +:+ String "}" t).
    apply rpartition_last_app.
  - rewrite map_map. induction IH as [|c cs Hc _ IHcs]; cbn; [done|]. by rewrite Hc, IHcs.
Qed.

(** X3: the namespace of the document does not matter: a document whose
    tags are all in a namespace [ns] is parsed as the document without
    namespaces. *)
Theorem parse_wms_ignores_the_namespace (ns xml : string) (root : Element) :
  parse_wms (λ _, Some (qualify ns root)) xml = parse_wms (λ _, Some root) xml.
Proof. unfold parse_wms. by rewrite strip_prefixes_qualify. Qed.

Lemma iter_self e : e ∈ iter e.
Proof. destruct e. apply list_elem_of_here. Qed.

Lemma iter_trans e : ∀ c d, c ∈ iter e → d ∈ iter c → d ∈ iter e.
Proof.
  induction e as [t a x cs IH] using Element_children_ind.
  intros c d Hc Hd. cbn [iter] in Hc. apply elem_of_cons in Hc as [-> | Hc]; [done|].
  apply list_elem_of_In, in_flat_map in Hc as (c' & Hc' & Hc).
  cbn [iter]. apply list_elem_of_further, list_elem_of_In, in_flat_map.
  exists c'. split; [done|]. apply list_elem_of_In.
  apply list_elem_of_In in Hc', Hc.
  by apply (proj1 (Forall_forall _ _) IH c' Hc' c d).
Qed.

Lemma iter_child e c : c ∈ children e → c ∈ iter e.
Proof.
  destruct e as [t a x cs]. cbn [children iter]. intros Hc.
  apply list_elem_of_further, list_elem_of_In, in_flat_map.
  exists c. split; [by apply list_elem_of_In|]. apply list_elem_of_In, iter_self.
Qed.

Lemma findall_iter t e c : c ∈ findall t e → c ∈ iter e ∧ tag c = t.
Proof.
  unfold findall. intros [Htag Hc]%list_elem_of_filter. split; [|done].
  by apply iter_child.
Qed.

Lemma find_path_iter t s root c : c ∈ find_path t [s] root → c ∈ iter root.
Proof.
  unfold find_path, descendants. cbn [fold_left].
  intros (d & Hd & Hc)%list_elem_of_In%in_flat_map.
  apply list_elem_of_In, list_elem_of_filter in Hd as [_ Hd].
  apply list_elem_of_In, in_flat_map in Hd as (c' & Hc' & Hd).
  apply list_elem_of_In in Hc. apply findall_iter in Hc as [Hc _].
  apply (iter_trans _ d); [|done].
  apply (iter_trans _ c'); [|by apply list_elem_of_In].
  by apply iter_child, list_elem_of_In.
Qed.

(** [parse_layer] adds to the sets of the heap only what the CRS and SRS
    elements below [element] give. *)
Lemma parse_layer_all_from (D : string → Prop) element :
  ∀ crs styles st st',
    (∀ e t, e ∈ iter element → tag e = "CRS" ∨ tag e = "SRS" → text e = Some t →
            D (upper t)) →
    parse_layer element crs styles st = Ok st' →
    all_from D (heap st) → all_from D (heap st').
Proof.
  induction element as [t a x cs IH] using Element_children_ind.
  intros crs styles st st' HD Hparse Hst. cbn [parse_layer] in Hparse.
  unfold mbind, result_bind in Hparse.
  destruct (add_crs crs _ (heap st)) as [h|] eqn:Hcrs; [|discriminate].
  assert (all_from D h) as Hh.
  { clear Hparse.
    assert (∀ e, e ∈ findall "CRS" (Elem t a x cs) ++ findall "SRS" (Elem t a x cs) →
                 e ∈ iter (Elem t a x cs) ∧ (tag e = "CRS" ∨ tag e = "SRS")) as Hes.
    { intros e [He | He]%elem_of_app; apply findall_iter in He as [? ?]; auto. }
    revert Hes Hcrs Hst. generalize (heap st).
    induction (findall "CRS" (Elem t a x cs) ++ findall "SRS" (Elem t a x cs))
      as [|e es IHes]; intros h0 Hes Hcrs Hh0; cbn [add_crs] in Hcrs.
    - by injection Hcrs as <-.
    - destruct (text e) as [te|] eqn:Hte; [|discriminate].
      apply (IHes (set_add crs (upper te) h0)); [|done|].
      + intros e' He'. apply Hes. by apply list_elem_of_further.
      + unfold all_from, set_add. apply Forall_alter; [done|].
        intros s _ Hs y [Hy | ->%elem_of_singleton]%elem_of_union; [by apply Hs|].
        destruct (Hes e) as [Hin Htag]; [apply list_elem_of_here|].
        by apply (HD e). }
  destruct (add_styles _ styles) as [new_styles|]; [|discriminate].
  revert Hparse.
  match goal with
  | |- context [{| heap := h; layers := ?l |}] =>
      assert (all_from D (heap {| heap := h; layers := l |})) as Hst1 by done;
      revert Hst1; generalize {| heap := h; layers := l |}
  end.
  assert (∀ sl, sl ∈ cs → ∀ e te, e ∈ iter sl → tag e = "CRS" ∨ tag e = "SRS" →
                       text e = Some te → D (upper te)) as Hsub.
  { intros sl Hsl e te He. apply HD, (iter_trans _ sl); [|done]. by apply iter_child. }
  clear Hcrs Hst Hh HD. revert Hsub.
  induction IH as [|sl sls IHsl _ IHsls]; intros Hsub st1 Hst1 Hrun.
  - by injection Hrun as <-.
  - assert (∀ sl', sl' ∈ sls → ∀ e te, e ∈ iter sl' → tag e = "CRS" ∨ tag e = "SRS" →
                          text e = Some te → D (upper te)) as Hsub'.
    { intros sl' Hsl'. apply Hsub. by apply list_elem_of_further. }
    destruct (decide (tag sl = "Layer")); [|by apply (IHsls Hsub' st1)].
    cbn [set_copy] in Hrun.
    destruct (parse_layer sl _ _ _) as [st2|] eqn:Hsl; [|discriminate].
    apply (IHsls Hsub' st2); [|done]. eapply IHsl; [|done|].
    + apply Hsub, list_elem_of_here.
    + cbn [heap]. unfold all_from, set_get. apply Forall_app. split; [done|].
      apply Forall_singleton. destruct (heap st1 !! crs) as [s|] eqn:Hs; cbn.
      * by apply (Forall_lookup_1 _ _ _ _ Hst1 Hs).
      * intros y Hy. set_solver.
Qed.

(** X4: every CRS value that a parsed document advertises for a layer
    comes from the document: it is the upper-case form of the text of a
    CRS or SRS element of the document. *)
Theorem advertised_crs_come_from_the_document (iterparse : string → option Element)
    (xml name : string) (w : wms) (s : gset string) (x : string) :
  parse_wms iterparse xml = Ok w → layer_crs w name = Some s → x ∈ s →
  ∃ root e t,
    iterparse xml = Some root ∧ e ∈ iter (strip_prefixes root)
    ∧ (tag e = "CRS" ∨ tag e = "SRS") ∧ text e = Some t ∧ x = upper t.
Proof.
  unfold parse_wms, parse_root. intros Hparse Hs Hx.
  destruct (iterparse xml) as [root|]; [|discriminate].
  exists root.
  set (D := λ y, ∃ e t, e ∈ iter (strip_prefixes root)
                        ∧ (tag e = "CRS" ∨ tag e = "SRS") ∧ text e = Some t ∧ y = upper t).
  assert (D x) as (e & t & He); [|by exists e, t].
  repeat case_bool_decide; cbn [negb] in Hparse; try discriminate.
  destruct (attrib_get _ _); [|discriminate].
  unfold mbind, result_bind in Hparse.
  destruct (parse_top_layers _ _) as [st|] eqn:Htop; [|discriminate].
  injection Hparse as <-.
  assert (all_from D (heap st)) as Hall.
  { revert Htop.
    assert (all_from D (heap {| heap := [∅]; layers := ∅ |})) as Hinit.
    { apply Forall_singleton. intros y Hy. set_solver. }
    revert Hinit. generalize {| heap := [∅]; layers := ∅ |}.
    assert (∀ tl, tl ∈ find_path "Capability" ["Layer"] (strip_prefixes root) →
                  tl ∈ iter (strip_prefixes root)) as Htls
      by (intros tl; apply find_path_iter).
    revert Htls.
    induction (find_path "Capability" ["Layer"] (strip_prefixes root)) as [|tl tls IH];
      intros Htls st0 Hst0 Htop; cbn [parse_top_layers] in Htop.
    - by injection Htop as <-.
    - unfold mbind, result_bind in Htop.
      destruct (parse_layer tl 0 ∅ st0) as [st1|] eqn:Htl; [|discriminate].
      apply (IH (λ tl' Htl', Htls tl' (list_elem_of_further _ _ _ Htl')) st1); [|done].
      apply (parse_layer_all_from D tl _ _ _ _) in Htl; [done| |done].
      intros e t He Htag Ht. exists e, t. split; [|done].
      apply (iter_trans _ tl); [|done]. apply Htls, list_elem_of_here. }
  unfold layer_crs in Hs. cbn [wms_layers wms_heap] in Hs.
  destruct (layers st !! Some name) as [l|]; [|discriminate].
  injection Hs as <-. unfold set_get in Hx.
  destruct (heap st !! CRS l) as [s|] eqn:Hl; cbn in Hx; [|set_solver].
  by apply (Forall_lookup_1 _ _ _ _ Hall Hl).
Qed.

Lemma add_styles_app es1 es2 styles :
  add_styles (es1 ++ es2) styles
  = match add_styles es1 styles with
    | Ok styles' => add_styles es2 styles'
    | Raise e => Raise e
    end.
Proof.
  revert styles. induction es1 as [|e es1 IH]; intros styles; cbn; [done|].
  destruct (find "Name" e); [apply IH | done].
Qed.

(** X5: the style loop never removes a style: the styles it returns are
    the inherited ones, except that under each name that a [Style] child
    gives, the last child of that name stands. *)
Theorem add_styles_extends (es : list Element) (styles styles' : gmap (option string) style)
    (k : option string) :
  add_styles es styles = Ok styles' →
  styles' !! k
  = match last (filter (λ e, style_Name <$> style_of e = Some k) es) with
    | Some e => style_of e
    | None => styles !! k
    end.
Proof.
  revert styles'. induction es as [|e es IH] using rev_ind; intros styles' Hadd.
  - by injection Hadd as <-.
  - rewrite add_styles_app in Hadd.
    destruct (add_styles es styles) as [styles1|] eqn:H1; [|discriminate].
    specialize (IH _ eq_refl). cbn [add_styles] in Hadd.
    destruct (find "Name" e) as [el|] eqn:Hel; [|discriminate].
    injection Hadd as <-.
    assert (style_of e = Some {| style_Title := text <$> find "Title" e;
                                 style_Name := text el |}) as He.
    { unfold style_of. by rewrite Hel. }
    rewrite filter_app, filter_cons, filter_nil.
    case_decide as Hk; rewrite He in Hk; cbn in Hk.
    + rewrite last_snoc, He. injection Hk as <-. by rewrite lookup_insert_eq.
    + rewrite app_nil_r, lookup_insert_ne by congruence. exact IH.
Qed.

(** ** More on check_wms *)

Section MoreWms.
Context `{Env}.



(** X7: when [check_wms] asks the server at all, the query has the seven
    mandatory parameters, and [crs] for version 1.3.0, [srs] for any
    other version: the later [wms_args['version']], [wms_args['format']]
    cannot raise. *)
Theorem requests_only_with_mandatory_parameters (src : source) :
  requested (check_wms src) ≠ [] →
  let args := args_of_url (url src) in
  Forall (λ p, is_Some (args !! p)) mandatory
  ∧ is_Some (args !! if String.eqb (get "version" args) "1.3.0" then "crs" else "srs").
Proof.
  intros Hreq args.
  assert (missing_request_parameters args = ∅) as Hempty.
  { destruct (decide (missing_request_parameters args = ∅)) as [|Hne]; [done|].
    destruct (check_wms_requested_take src) as (k & Hk & Hzero).
    apply Hzero in Hne as ->. by rewrite Hk in Hreq. }
  assert (∀ p, ¬ p ∈ missing_request_parameters args) as Hnone.
  { intros p. rewrite Hempty. apply not_elem_of_empty. }
  assert (∀ p, p ∈ mandatory → is_Some (args !! p)) as Hmand.
  { intros p Hp. destruct (args !! p) eqn:Hl; [done|].
    destruct (Hnone p). apply elem_of_missing. by left. }
  split; [by apply Forall_forall|].
  destruct (Hmand "version") as [v Hv]; [compute_done|].
  rewrite (get_Some _ _ _ Hv).
  destruct (String.eqb_spec v "1.3.0") as [-> | Hv'].
  - destruct (args !! "crs") eqn:Hl; [done|].
    destruct (Hnone "crs"). apply elem_of_missing. right. left. done.
  - destruct (args !! "srs") eqn:Hl; [done|].
    destruct (Hnone "srs"). apply elem_of_missing. right. right. eauto.
Qed.

Lemma check_wms_good_nil (src : source) : good_msgs (check_wms src) = [].
Proof.
  unfold check_wms. destruct (0 <? _)%nat; [done|].
  destruct (negotiate _ _ _ _ _) as [[[w|] exc] reqs]; [|done].
  unfold cross_check. by destruct (join_items _ _ _).
Qed.

(** Where the join of the formats raises: at the first item that is
    [None]. *)
Lemma join_items_first_None sep i0 l i :
  l !! i = Some None → (∀ j, (j < i)%nat → l !! j ≠ Some None) →
  join_items sep i0 l
  = Raise (TypeError ("sequence item " +:+ str_int (i0 + Z.of_nat i)
                      +:+ ": expected str instance, NoneType found")).
Proof.
  revert i0 i. induction l as [|[x|] l IH]; intros i0 i Hi Hfirst.
  - by rewrite lookup_nil in Hi.
  - destruct i as [|i]; [discriminate Hi|]. cbn [join_items].
    rewrite (IH (i0 + 1)%Z i); [|done|].
    + unfold mbind, result_bind.
      by replace (i0 + 1 + Z.of_nat i)%Z with (i0 + Z.of_nat (S i))%Z by lia.
    + intros j Hj. apply (Hfirst (S j)). lia.
  - destruct i as [|i].
    + cbn [join_items Z.of_nat]. by rewrite Z.add_0_r.
    + destruct (Hfirst 0%nat); [lia | done].
Qed.

(** X11: once the negotiation has given capabilities, [check_wms]
    ends normally when every [Format] element has a text; when one has
    none, the join of the formats raises a [TypeError] that names the
    first such element, and the script does not catch it. *)
Theorem check_wms_uncaught (src : source) (w : wms) (exc reqs : list string) :
  let args := args_of_url (url src) in
  missing_request_parameters args = ∅ →
  negotiate (urlparse (url src)) args versions [] [] = (Some w, exc, reqs) →
  (None ∉ formats w → uncaught (check_wms src) = None)
  ∧ (∀ i, formats w !! i = Some None →
          (∀ j, (j < i)%nat → formats w !! j ≠ Some None) →
          uncaught (check_wms src)
          = Some (TypeError ("sequence item " +:+ str_int (Z.of_nat i)
                             +:+ ": expected str instance, NoneType found"))
          ∧ good_msgs (check_wms src) = []
          ∧ requested (check_wms src) = reqs).
Proof.
  intros args Hmissing Hn.
  rewrite (check_wms_negotiated src w exc reqs) by done. fold args.
  unfold cross_check. split.
  - intros Hnone.
    destruct (join_items "', '" 0 (formats w)) as [fs|e] eqn:Hj; [done|].
    destruct Hnone. apply (join_items_raises "', '" 0). eauto.
  - intros i Hi Hfirst.
    by rewrite (join_items_first_None _ _ _ i).
Qed.

Lemma flat_map_nil_iff {A B} (f : A → list B) (l : list A) :
  flat_map f l = [] ↔ ∀ x, x ∈ l → f x = [].
Proof.
  induction l as [|a l IH]; cbn.
  - split; [by intros _ x ?%elem_of_nil | done].
  - split.
    + intros [Ha Hl]%app_eq_nil x [-> | Hx]%elem_of_cons; [done|]. by apply IH.
    + intros Hall. rewrite (Hall a), (proj2 IH); [done| |apply list_elem_of_here].
      intros x Hx. apply Hall. by apply list_elem_of_further.
Qed.

Lemma flat_map_length_le {A B} (f : A → list B) (l : list A) :
  (∀ x, List.length (f x) ≤ 1)%nat → (List.length (flat_map f l) ≤ List.length l)%nat.
Proof.
  intros Hf. induction l as [|a l IH]; cbn; [done|].
  rewrite length_app. specialize (Hf a). lia.
Qed.

(** X10: the CRS check.  Without [available_projections] it reports that
    and nothing else.  With them it reports nothing exactly when, for
    each requested layer that the capabilities advertise, the upper-case
    form of every projection is in the layer's CRS set; layers that are
    not advertised are passed over, and each layer gets at most one
    message. *)
Theorem crs_check (src : source) (layer_arg : string) (w : wms) :
  (available_projections src = None →
   check_crs src layer_arg w = ["source is missing 'available_projections' element."])
  ∧ (∀ projections, available_projections src = Some projections →
       (check_crs src layer_arg w = [] ↔
        ∀ layer_name l crs,
          layer_name ∈ split "," layer_arg → wms_layers w !! Some layer_name = Some l →
          crs ∈ projections → upper crs ∈ set_get (CRS l) (wms_heap w))
       ∧ (List.length (check_crs src layer_arg w)
          ≤ List.length (split "," layer_arg))%nat).
Proof.
  unfold check_crs. split; [by intros ->|]. intros projections ->.
  assert (∀ n, (check_layer_crs projections w n = [] ↔
                ∀ l crs, wms_layers w !! Some n = Some l → crs ∈ projections →
                         upper crs ∈ set_get (CRS l) (wms_heap w))
               ∧ (List.length (check_layer_crs projections w n) ≤ 1)%nat) as Hlayer.
  { intros n. unfold check_layer_crs.
    destruct (wms_layers w !! Some n) as [l|];
      [|split; [split; [by intros _ ? ? [=] | done] | cbn; lia]].
    destruct (0 <? size _)%nat eqn:Hsize.
    - split; [|done]. split; [discriminate|]. intros Hall.
      apply not_false_iff_true in Hsize. destruct Hsize.
      apply none_unsupported. intros crs Hcrs Hnot. apply Hnot. by apply (Hall l).
    - split; [|cbn; lia]. split; [|done]. intros _ l' crs [= <-] Hcrs.
      destruct (decide (upper crs ∈ set_get (CRS l) (wms_heap w))) as [|Hnot]; [done|].
      by destruct (proj1 (none_unsupported _ _) Hsize crs). }
  split.
  - rewrite flat_map_nil_iff. split.
    + intros Hall n l crs Hn. by apply (Hlayer n), Hall.
    + intros Hall n Hn. apply (Hlayer n). intros l crs. by apply Hall.
  - apply flat_map_length_le. intros n. apply (Hlayer n).
Qed.

Lemma cross_check_warnings src args w o m :
  m ∈ warning_msgs (cross_check src args w o) →
  m ∈ warning_msgs o ∨ (∃ x, m = "Query requests WMS version '" +:+ x)
  ∨ ∃ x, m = "Server supports jpeg, but '" +:+ x.
Proof.
  unfold cross_check.
  assert (∀ (b : bool) x, m ∈ (if b then ["Query requests WMS version '" +:+ x] else []) →
                          ∃ x, m = "Query requests WMS version '" +:+ x) as Hversion.
  { intros [] x Hm; [|in_nil Hm]. in_singleton Hm. eauto. }
  assert (∀ (b : bool) x, m ∈ (if b then ["Server supports jpeg, but '" +:+ x] else []) →
                          ∃ x, m = "Server supports jpeg, but '" +:+ x) as Hjpeg.
  { intros [] x Hm; [|in_nil Hm]. in_singleton Hm. eauto. }
  destruct (join_items _ _ _) as [fs|e]; cbn [warning_msgs]; rewrite !elem_of_app.
  - intros [Hm | [Hm | Hm]]; [by left | right; left | right; right]; eauto.
  - intros [Hm | Hm]; [by left | right; left]; eauto.
Qed.

Lemma cross_check_keeps_warnings src args w o m :
  m ∈ warning_msgs o → m ∈ warning_msgs (cross_check src args w o).
Proof.
  unfold cross_check. intros Hm.
  destruct (join_items _ _ _); cbn [warning_msgs]; rewrite !elem_of_app; tauto.
Qed.

(** X9: the missing [styles] parameter is a warning and no error: once
    the mandatory parameters are there, the warning is given exactly
    when [parse_qsl] returns no pair whose name is [styles] in lower
    case, whatever the server answers. *)
Theorem styles_warning_iff_no_styles (src : source) :
  let args := args_of_url (url src) in
  let pairs := parse_qsl (query (urlparse (url src))) in
  let warning :=
    "Parameter 'styles' is missing in url. 'STYLES=' can be used to request default style." in
  missing_request_parameters args = ∅ →
  (warning ∈ warning_msgs (check_wms src) ↔ ∀ n v, (n, v) ∈ pairs → lower n ≠ "styles")
  ∧ warning ∉ error_msgs (check_wms src).
Proof.
  intros args pairs warning Hempty.
  assert (args !! "styles" = None ↔ ∀ n v, (n, v) ∈ pairs → lower n ≠ "styles") as Hpairs.
  { rewrite eq_None_not_Some. unfold args, args_of_url. fold pairs.
    rewrite wms_args_of_is_Some. split.
    - intros Hno n v Hin Hn. apply Hno. eauto.
    - intros Hno (n & v & Hin & Hn). by apply (Hno n v). }
  rewrite <- Hpairs. clear Hpairs.
  unfold check_wms. fold args.
  rewrite missing_empty_size by done.
  assert (warning ∈ styles_warning args ↔ args !! "styles" = None) as Hstyles.
  { unfold styles_warning. rewrite <- has_false. destruct (has "styles" args).
    - split; [by intros ?%elem_of_nil | discriminate].
    - split; [done | intros _; apply list_elem_of_here]. }
  assert (∀ u, warning ∉ url_errors u) as Hurl.
  { intros u. unfold url_errors. rewrite elem_of_app. intros [Hm | Hm].
    - destruct (validators_url _); [in_nil Hm|].
      apply list_elem_of_singleton in Hm. discriminate Hm.
    - destruct (0 <? _)%nat; [|in_nil Hm].
      apply list_elem_of_singleton in Hm. discriminate Hm. }
  destruct (negotiate _ _ _ _ _) as [[[w|] exc] reqs] eqn:Hn.
  - split.
    + rewrite <- Hstyles. split; [|intros Hm; apply cross_check_keeps_warnings; exact Hm].
      intros [Hm | [[x Hm] | [x Hm]]]%cross_check_warnings; [done | discriminate Hm..].
    + intros [Hm | [(la & _ & [Hm | [Hm | Hm]]) | [x Hm]]]%cross_check_errors.
      * by apply Hurl in Hm.
      * unfold check_layers in Hm. destruct (0 <? _)%nat; [|in_nil Hm].
        apply list_elem_of_singleton in Hm. discriminate Hm.
      * apply check_styles_elem in Hm as (style & _ & [[Hm _] | (? & ? & ? & _ & _ & _ & _ & Hm)]);
          discriminate Hm.
      * unfold check_crs in Hm. destruct (available_projections src).
        -- apply list_elem_of_In, in_flat_map in Hm as (n & _ & Hm%list_elem_of_In).
           unfold check_layer_crs in Hm. destruct (wms_layers w !! Some n); [|in_nil Hm].
           destruct (0 <? _)%nat; [|in_nil Hm].
           apply list_elem_of_singleton in Hm. discriminate Hm.
        -- apply list_elem_of_singleton in Hm. discriminate Hm.
      * discriminate Hm.
  - cbn [warning_msgs error_msgs]. split; [done|].
    rewrite elem_of_app. intros [Hm | Hm]; [by apply Hurl in Hm|].
    destruct (negotiate_exceptions _ _ _ _ _ _ _ _ _ Hn Hm) as [Hnil | (v & e & Hm')];
      [in_nil Hnil | discriminate Hm'].
Qed.

(** X6: the keys of the parameter map are the names of the pairs that
    [parse_qsl] returns, in lower case: whatever the case of a name in
    the query, its value is found under the lower-case name. *)
Theorem wms_args_keys_are_the_lowered_names (src : source) (k : string) :
  is_Some (args_of_url (url src) !! k)
  ↔ ∃ n v, (n, v) ∈ parse_qsl (query (urlparse (url src))) ∧ lower n = k.
Proof. apply wms_args_of_is_Some. Qed.
End MoreWms.

(** ** More on check_tms *)

Lemma prefix_cons_inv a p c s :
  String.prefix (String a p) (String c s) = true → a = c ∧ String.prefix p s = true.
Proof. cbn. by destruct (ascii_dec a c). Qed.

Lemma prefix_switch_search s :
  String.prefix "switch" s = true → is_Some (search_switch s).
Proof.
  intros Hp. destruct s as [|c s]; [discriminate|].
  cbn [search_switch]. unfold match_switch_here. rewrite Hp.
  by destruct (String.substring _ _ _) as [|[[] [] [] [] [] [] [] []] ?].
Qed.

Lemma search_switch_further c s : is_Some (search_switch s) → is_Some (search_switch (String c s)).
Proof.
  intros Hs. cbn [search_switch]. by destruct (match_switch_here (String c s)).
Qed.

(** The search finds a match wherever the template has [{switch:]. *)
Lemma contains_switch_search s :
  contains "{switch:" s = true → is_Some (search_switch s).
Proof.
  induction s as [|c s IH]; [discriminate|].
  cbn [contains]. intros [Hp | Hc]%orb_prop; [|by apply search_switch_further, IH].
  apply search_switch_further, prefix_switch_search. clear IH.
  apply prefix_cons_inv in Hp as [_ Hp].
  repeat (destruct s as [|? s]; [discriminate|]; apply prefix_cons_inv in Hp as [<- Hp]).
  reflexivity.
Qed.

Section MoreTms.
Context `{Env}.
Local Open Scope Z_scope.

(** X12: rewriting the switch never raises: where the template has
    [{switch:] the search has a match, so [match.group] is never called on
    [None]. *)
Theorem resolve_switch_returns (tms_url : string) :
  ∃ t ps, resolve_switch tms_url = Ok (t, ps)
          ∧ (contains "{switch:" tms_url = false → t = tms_url ∧ ps = [])
          ∧ (contains "{switch:" tms_url = true → ∃ v, ps = [("switch", VStr v)]).
Proof.
  unfold resolve_switch. destruct (contains "{switch:" tms_url) eqn:Hc.
  - destruct (contains_switch_search _ Hc) as [[g0 g1] ->].
    eexists _, _. split; [done|]. split; [discriminate | by eauto].
  - eexists _, _. split; [done|]. split; [done | discriminate].
Qed.

Lemma elem_of_range_down a b z : z ∈ range_down a b ↔ b < z ≤ a.
Proof.
  unfold range_down. rewrite list_elem_of_fmap. split.
  - intros (i & -> & Hi). apply elem_of_seq in Hi. lia.
  - intros Hz. exists (Z.to_nat (a - z)). split; [lia|].
    apply elem_of_seq. lia.
Qed.

Lemma length_range a b : List.length (range a b) = Z.to_nat (b - a).
Proof. unfold range. by rewrite length_fmap, length_seq. Qed.

Lemma range_down_cons a b : b < a → ∃ l, range_down a b = a :: l ∧ List.length l = Z.to_nat (a - b - 1).
Proof.
  intros Hlt. unfold range_down.
  replace (Z.to_nat (a - b)) with (S (Z.to_nat (a - b - 1))) by lia.
  cbn [seq fmap list_fmap]. eexists. split.
  - f_equal. lia.
  - by rewrite length_fmap, length_seq.
Qed.

(** What one call of [test_zoom] changes: a zoom more is tested, at most
    one URL more is fetched, and the two lists grow at their ends. *)
Lemma test_zoom_effect e z st st' r :
  test_zoom e z st = (st', r) →
  tested_zooms st' = tested_zooms st ∪ {[z]}
  ∧ (List.length (fetched st') ≤ List.length (fetched st) + 1)%nat
  ∧ zoom_failures st `prefix_of` zoom_failures st'
  ∧ (r = Ok false → z ∈ zoom_failures st')
  ∧ (∀ b, r = Ok b → reachable e z = Ok b).
Proof.
  unfold test_zoom, reachable. destruct (query_url e z) as [u|ex]; cbn.
  - destruct (test_url u); intros [= <- <-]; cbn; rewrite ?length_app; cbn;
      repeat split; try done; try lia; try (by apply prefix_app_r);
      try (intros _; apply elem_of_app; right; apply list_elem_of_here);
      by intros ? [= <-].
  - intros [= <- <-]; cbn. repeat split; try done; lia.
Qed.

Lemma widen_effect e zooms st st' r :
  widen e zooms st = (st', r) →
  tested_zooms st ⊆ tested_zooms st'
  ∧ tested_zooms st' ⊆ tested_zooms st ∪ list_to_set zooms
  ∧ (List.length (fetched st') ≤ List.length (fetched st) + List.length zooms)%nat
  ∧ zoom_failures st `prefix_of` zoom_failures st'.
Proof.
  revert st. induction zooms as [|z zooms IH]; intros st Hw; cbn [widen] in Hw.
  - injection Hw as <- <-. repeat split; try done; [set_solver | cbn; lia].
  - destruct (bool_decide_reflect (z ∈ tested_zooms st)) as [Hin | Hout].
    + destruct (IH _ Hw) as (H1 & H2 & H3 & H4).
      repeat split; try done; [set_solver | cbn; lia].
    + destruct (test_zoom e z st) as [st1 r1] eqn:Ht.
      destruct (test_zoom_effect _ _ _ _ _ Ht) as (T1 & T2 & T3 & _).
      destruct r1 as [[|] | ex]; try (injection Hw as <- <-;
        repeat split; try done; [set_solver | set_solver | cbn; lia]).
      destruct (IH _ Hw) as (H1 & H2 & H3 & H4).
      repeat split; [set_solver | set_solver | cbn; lia | by etrans].
Qed.

(** The two phases: which zooms they test and how much they fetch. *)
Lemma min_phase_effect e min_zoom max_zoom st st' r :
  min_phase e min_zoom max_zoom st = (st', r) →
  tested_zooms st' ⊆ tested_zooms st ∪ {[min_zoom]}
                    ∪ list_to_set (range (min_zoom + 1) (Z.min (min_zoom + 4) max_zoom))
  ∧ (List.length (fetched st') ≤ List.length (fetched st) + 4)%nat
  ∧ zoom_failures st `prefix_of` zoom_failures st'
  ∧ (∀ u, r = Ok u → reachable e min_zoom = Ok false → min_zoom ∈ zoom_failures st')
  ∧ (∀ u, r = Ok u → ∃ b, reachable e min_zoom = Ok b).
Proof.
  unfold min_phase, mbind, probing_bind.
  destruct (test_zoom e min_zoom st) as [st1 r1] eqn:Ht.
  destruct (test_zoom_effect _ _ _ _ _ Ht) as (T1 & T2 & T3 & T4 & T5).
  destruct r1 as [[|] | ex].
  - intros [= <- <-]. repeat split; try done; [set_solver | lia | |by eauto].
    intros _ _ Hr. specialize (T5 true eq_refl). congruence.
  - intros Hw. destruct (widen_effect _ _ _ _ _ Hw) as (H1 & H2 & H3 & H4).
    rewrite length_range in H3.
    repeat split; [set_solver | lia | by etrans | | by eauto].
    intros _ _ _. destruct H4 as [k ->]. apply elem_of_app. left. by apply T4.
  - intros [= <- <-]. repeat split; try done; [set_solver | lia].
Qed.

Lemma max_phase_effect e min_zoom max_zoom st st' r :
  max_phase e min_zoom max_zoom st = (st', r) →
  tested_zooms st' ⊆ tested_zooms st ∪ {[max_zoom]}
                    ∪ list_to_set (range_down max_zoom (Z.max (max_zoom - 4) min_zoom))
  ∧ (List.length (fetched st') ≤ List.length (fetched st) + 4)%nat
  ∧ zoom_failures st `prefix_of` zoom_failures st'
  ∧ (∀ u, r = Ok u → reachable e max_zoom = Ok false → max_zoom ∈ zoom_failures st')
  ∧ (∀ u, r = Ok u → ∃ b, reachable e max_zoom = Ok b).
Proof.
  unfold max_phase, mbind, probing_bind.
  destruct (test_zoom e max_zoom st) as [st1 r1] eqn:Ht.
  destruct (test_zoom_effect _ _ _ _ _ Ht) as (T1 & T2 & T3 & T4 & T5).
  destruct r1 as [[|] | ex].
  - intros [= <- <-]. repeat split; try done; [set_solver | lia | |by eauto].
    intros _ _ Hr. specialize (T5 true eq_refl). congruence.
  - intros Hw.
    assert (∃ l, widen e (range_down max_zoom (Z.max (max_zoom - 4) min_zoom)) st1
                 = widen e l st1 ∧ (List.length l ≤ 3)%nat
                 ∧ (∀ z, z ∈ l → z ∈ range_down max_zoom (Z.max (max_zoom - 4) min_zoom)))
      as (l & Hskip & Hlen & Hsub).
    { destruct (decide (Z.max (max_zoom - 4) min_zoom < max_zoom)) as [Hlt | Hge].
      - destruct (range_down_cons _ _ Hlt) as (l & -> & Hl). exists l.
        split; [apply widen_skip; set_solver|]. split; [lia|].
        intros z Hz. by apply list_elem_of_further.
      - exists []. unfold range_down. replace (Z.to_nat _) with 0%nat by lia.
        repeat split; [cbn; lia | by intros z ?%elem_of_nil]. }
    rewrite Hskip in Hw.
    destruct (widen_effect _ _ _ _ _ Hw) as (H1 & H2 & H3 & H4).
    repeat split; [| lia | by etrans | | by eauto].
    + intros z Hz. apply H2 in Hz. rewrite T1 in Hz.
      apply elem_of_union in Hz as [Hz | Hz%elem_of_list_to_set%Hsub]; set_solver.
    + intros _ _ _. destruct H4 as [k ->]. apply elem_of_app. left. by apply T4.
  - intros [= <- <-]. repeat split; try done; [set_solver | lia].
Qed.
Lemma probe_zooms_effect e min_zoom max_zoom st r :
  probe_zooms e min_zoom max_zoom no_probes = (st, r) →
  tested_zooms st ⊆ {[min_zoom; max_zoom]}
                   ∪ list_to_set (range (min_zoom + 1) (Z.min (min_zoom + 4) max_zoom))
                   ∪ list_to_set (range_down max_zoom (Z.max (max_zoom - 4) min_zoom))
  ∧ (List.length (fetched st) ≤ 8)%nat
  ∧ (∀ u, r = Ok u → zoom_failures st = [] →
       reachable e min_zoom = Ok true ∧ reachable e max_zoom = Ok true).
Proof.
  unfold probe_zooms, mbind, probing_bind.
  destruct (min_phase e min_zoom max_zoom no_probes) as [st1 r1] eqn:Hmin.
  destruct (min_phase_effect _ _ _ _ _ _ Hmin) as (M1 & M2 & M3 & M4 & M5).
  cbn in M1, M2. destruct r1 as [[]|ex].
  - intros Hmax. destruct (max_phase_effect _ _ _ _ _ _ Hmax) as (X1 & X2 & X3 & X4 & X5).
    split; [set_solver | split; [lia|]]. intros ? -> Hnil. split.
    + destruct (M5 _ eq_refl) as [[] Hb]; [done|].
      specialize (M4 _ eq_refl Hb). destruct X3 as [k Hk]. rewrite Hk in Hnil.
      apply app_eq_nil in Hnil as [Hnil1 _]. rewrite Hnil1 in M4. by apply elem_of_nil in M4.
    + destruct (X5 _ eq_refl) as [[] Hb]; [done|].
      specialize (X4 _ eq_refl Hb). rewrite Hnil in X4. by apply elem_of_nil in X4.
  - intros [= <- <-]. split; [set_solver | split; [lia | discriminate]].
Qed.

(** X16: [check_tms] leaves exactly one message for every source, whatever
    the server does. *)
Theorem check_tms_leaves_one_message (src : source) :
  messages (check_tms src) = 1%nat.
Proof.
  unfold check_tms, messages.
  destruct (centroid_of src); [|done].
  destruct (contains "{z}" (url src)); [done|].
  destruct (contains "{apikey}" (url src)); [done|].
  destruct (resolve_switch (url src)) as [[t ps]|]; [|done].
  destruct (probe_zooms _ _ _ _) as [st [[]|ex]]; [|done].
  unfold classify. by repeat destruct (_ && _).
Qed.

(** X17: [check_tms] fetches at most eight tiles; and none when the
    template has [{z}] or [{apikey}]. *)
Theorem check_tms_requests (src : source) :
  (List.length (requested (check_tms src)) ≤ 8)%nat
  ∧ (contains "{z}" (url src) || contains "{apikey}" (url src) = true →
     requested (check_tms src) = []).
Proof.
  unfold check_tms.
  destruct (centroid_of src); [|by split; [cbn; lia|]].
  destruct (contains "{z}" (url src)); [by split; [cbn; lia|]|].
  destruct (contains "{apikey}" (url src)); [by split; [cbn; lia|]|].
  split; [|discriminate].
  destruct (resolve_switch (url src)) as [[t ps]|]; [|cbn; lia].
  destruct (probe_zooms _ _ _ _) as [st r] eqn:Hp.
  destruct (probe_zooms_effect _ _ _ _ _ Hp) as (_ & Hlen & _).
  destruct r as [[]|ex]; [|done].
  unfold classify. by repeat destruct (_ && _).
Qed.

(** X13: the zooms that the probing tests are [min_zoom], [max_zoom], and
    zooms strictly between them that are at most 3 above [min_zoom] or at
    most 3 below [max_zoom]. *)
Theorem tested_zooms_are_near_the_ends (e : tms_env) (min_zoom max_zoom z : Z)
    (st : probes) (r : result unit) :
  probe_zooms e min_zoom max_zoom no_probes = (st, r) →
  z ∈ tested_zooms st →
  z = min_zoom ∨ z = max_zoom
  ∨ (min_zoom < z < max_zoom ∧ (z ≤ min_zoom + 3 ∨ max_zoom - 3 ≤ z)).
Proof.
  intros Hp Hz. destruct (probe_zooms_effect _ _ _ _ _ Hp) as (Hsub & _ & _).
  apply Hsub in Hz. rewrite !elem_of_union, !elem_of_list_to_set in Hz.
  rewrite elem_of_range, elem_of_range_down, !elem_of_singleton in Hz. lia.
Qed.

(** X15: a source is called good exactly when the tiles at its [min_zoom]
    and at its [max_zoom] are both reachable; two tiles are fetched
    then. *)
Theorem good_iff_both_ends_reachable (src : source) (c : Q * Q) (t : string)
    (ps : list (string * pyval)) :
  centroid_of src = Ok c →
  contains "{z}" (url src) = false → contains "{apikey}" (url src) = false →
  resolve_switch (url src) = Ok (t, ps) →
  let e := {| centroid := c; tms_url := t; parameters := ps |} in
  let lo := default 0 (min_zoom src) in
  let hi := default 22 (max_zoom src) in
  (good_msgs (check_tms src) ≠ [] ↔ reachable e lo = Ok true ∧ reachable e hi = Ok true)
  ∧ (good_msgs (check_tms src) ≠ [] →
     error_msgs (check_tms src) = [] ∧ List.length (requested (check_tms src)) = 2%nat).
Proof.
  intros Hc Hz Hkey Hsw e lo hi.
  assert (check_tms src = match probe_zooms e lo hi no_probes with
                          | (st, Ok _) => classify st
                          | (st, Raise ex) => exception_outcome st ex
                          end) as ->.
  { unfold check_tms. by rewrite Hc, Hz, Hkey, Hsw. }
  assert (good_msgs match probe_zooms e lo hi no_probes with
                    | (st, Ok _) => classify st
                    | (st, Raise ex) => exception_outcome st ex
                    end ≠ [] → reachable e lo = Ok true ∧ reachable e hi = Ok true) as Hgood.
  { destruct (probe_zooms e lo hi no_probes) as [st r] eqn:Hp.
    destruct (probe_zooms_effect _ _ _ _ _ Hp) as (_ & _ & Hends).
    destruct r as [[]|ex]; [|done]. unfold classify.
    destruct (zoom_failures st) as [|z l] eqn:Hf; [intros _; by apply (Hends tt)|].
    cbn. destruct (zoom_success st); cbn; intros Hg; by destruct Hg. }
  assert (reachable e lo = Ok true → reachable e hi = Ok true →
          ∃ u1 u2, probe_zooms e lo hi no_probes
                   = (probed hi u2 true (probed lo u1 true no_probes), Ok tt)) as Hboth.
  { intros Hlo Hhi.
    destruct (test_zoom_reachable e lo no_probes _ Hlo) as (u1 & T1).
    destruct (test_zoom_reachable e hi (probed lo u1 true no_probes) _ Hhi) as (u2 & T2).
    exists u1, u2. unfold probe_zooms, min_phase, max_phase, mbind, probing_bind.
    rewrite T1. cbn. by rewrite T2. }
  split.
  - split; [done|]. intros [Hlo Hhi]. destruct (Hboth Hlo Hhi) as (u1 & u2 & ->). done.
  - intros [Hlo Hhi]%Hgood. destruct (Hboth Hlo Hhi) as (u1 & u2 & ->). done.
Qed.
End MoreTms.

(** ** dict_raise_on_duplicates *)

Section MoreLoading.
Variable repr : string → string.

Lemma dict_from_loaded d pairs d' :
  dict_raise_on_duplicates_from repr d pairs = Loaded d' →
  NoDup pairs.*1
  ∧ (∀ k, k ∈ pairs.*1 → d !! k = None)
  ∧ (∀ k v, d' !! k = Some v ↔ (k, v) ∈ pairs ∨ d !! k = Some v).
Proof.
  revert d. induction pairs as [|[k v] pairs IH]; intros d Hload;
    cbn [dict_raise_on_duplicates_from] in Hload.
  - injection Hload as <-. split; [constructor|]. split.
    + by intros k ?%elem_of_nil.
    + intros k v. rewrite elem_of_nil. tauto.
  - destruct (bool_decide_reflect (is_Some (d !! k))) as [|Hfresh]; [discriminate|].
    apply eq_None_not_Some in Hfresh.
    destruct (IH _ Hload) as (Hnd & Hnone & Hd'). cbn [fmap list_fmap fst].
    assert (k ∉ pairs.*1) as Hk.
    { intros Hin. apply Hnone in Hin. by rewrite lookup_insert_eq in Hin. }
    split; [by constructor|]. split.
    + intros k' [-> | Hin]%elem_of_cons; [done|].
      specialize (Hnone _ Hin). rewrite lookup_insert_ne in Hnone; [done|].
      by intros ->.
    + intros k' v'. rewrite Hd', elem_of_cons. destruct (decide (k = k')) as [<- | Hne].
      * rewrite lookup_insert_eq, Hfresh. split.
        -- intros [Hin | [= <-]]; [|by left; left].
           destruct Hk. apply list_elem_of_fmap. by exists (k, v').
        -- intros [[[= <-] | Hin] | [=]]; [by right|].
           destruct Hk. apply list_elem_of_fmap. by exists (k, v').
      * rewrite lookup_insert_ne by done. split.
        -- intros [? | ?]; [left; by right | by right].
        -- intros [[[= ? ?] | ?] | ?]; [done | by left | by right].
Qed.

Lemma dict_from_rejects d pre k v post :
  NoDup pre.*1 → (∀ k', k' ∈ pre.*1 → d !! k' = None) →
  k ∈ pre.*1 ∨ is_Some (d !! k) →
  dict_raise_on_duplicates_from repr d (pre ++ (k, v) :: post)
  = ValidationError ("duplicate key: " +:+ repr k).
Proof.
  revert d. induction pre as [|[k1 v1] pre IH]; intros d Hnd Hnone Hk;
    cbn [app dict_raise_on_duplicates_from].
  - destruct Hk as [Hk%elem_of_nil | Hk]; [done|]. by rewrite bool_decide_eq_true_2.
  - cbn [fmap list_fmap fst] in Hnd, Hnone, Hk. apply NoDup_cons in Hnd as [Hk1 Hnd].
    rewrite bool_decide_eq_false_2.
    2:{ rewrite <- eq_None_not_Some. apply Hnone, list_elem_of_here. }
    apply IH; [done | |].
    + intros k' Hin. rewrite lookup_insert_ne; [|by intros ->].
      by apply Hnone, list_elem_of_further.
    + destruct (decide (k1 = k)) as [-> | Hne].
      * right. by rewrite lookup_insert_eq.
      * rewrite lookup_insert_ne by done.
        destruct Hk as [[-> | Hk]%elem_of_cons | Hk]; [done | by left | by right].
Qed.

Lemma dict_from_ok d pairs :
  NoDup pairs.*1 → (∀ k, k ∈ pairs.*1 → d !! k = None) →
  ∃ d', dict_raise_on_duplicates_from repr d pairs = Loaded d'.
Proof.
  revert d. induction pairs as [|[k v] pairs IH]; intros d Hnd Hnone;
    cbn [dict_raise_on_duplicates_from]; [by eauto|].
  cbn [fmap list_fmap fst] in Hnd, Hnone. apply NoDup_cons in Hnd as [Hk Hnd].
  rewrite bool_decide_eq_false_2.
  2:{ rewrite <- eq_None_not_Some. apply Hnone, list_elem_of_here. }
  apply IH; [done|]. intros k' Hin. rewrite lookup_insert_ne; [|by intros ->].
  by apply Hnone, list_elem_of_further.
Qed.

(** X18: [dict_raise_on_duplicates] returns a dict exactly for members with
    distinct keys, and the dict then holds each member's value under its
    key and nothing else. *)
Theorem dict_raise_on_duplicates_loads (ordered_pairs : list (string * json)) :
  (NoDup ordered_pairs.*1 ↔ ∃ d, dict_raise_on_duplicates repr ordered_pairs = Loaded d)
  ∧ (∀ d, dict_raise_on_duplicates repr ordered_pairs = Loaded d →
       ∀ k v, d !! k = Some v ↔ (k, v) ∈ ordered_pairs).
Proof.
  unfold dict_raise_on_duplicates. split.
  - split.
    + intros Hnd. by apply dict_from_ok.
    + intros [d Hd]. by apply dict_from_loaded in Hd as (? & _).
  - intros d Hd k v. apply dict_from_loaded in Hd as (_ & _ & Hd). rewrite Hd.
    rewrite lookup_empty. split; [by intros [? | [=]] | by left].
Qed.

(** X19: [dict_raise_on_duplicates] raises at the first member whose key
    has been seen, and names that key, whatever follows. *)
Theorem dict_raise_on_duplicates_raises (pre post : list (string * json))
    (k : string) (v : json) :
  NoDup pre.*1 → k ∈ pre.*1 →
  dict_raise_on_duplicates repr (pre ++ (k, v) :: post)
  = ValidationError ("duplicate key: " +:+ repr k).
Proof.
  intros Hnd Hk. apply dict_from_rejects; [done | | by left].
  intros k' _. apply lookup_empty.
Qed.

End MoreLoading.

(** ** check_wms_endpoint and the choice of the check *)

Section MoreChecks.
Context `{Env} `{WmtsClient}.

Lemma check_wms_endpoint_good (src : source) : good_msgs (check_wms_endpoint src) = [].
Proof.
  unfold check_wms_endpoint. destruct (requests_get _); [|done].
  by destruct (parse_wms _ _).
Qed.

Lemma check_wms_endpoint_caught (src : source) e :
  uncaught (check_wms_endpoint src) ≠ Some e.
Proof.
  unfold check_wms_endpoint. destruct (requests_get _); [|done].
  by destruct (parse_wms _ _).
Qed.

(** X20: [check_wms_endpoint] asks for the URL once and leaves at most one
    message, an error.  When it leaves none, the answer is an XML document
    whose root is a capabilities element with a version; and it leaves
    none for every such document whose layers have no CRS or SRS element
    without text and no Style element without a Name. *)
Theorem check_wms_endpoint_accepts (src : source) :
  requested (check_wms_endpoint src) = [url src]
  ∧ good_msgs (check_wms_endpoint src) = []
  ∧ warning_msgs (check_wms_endpoint src) = []
  ∧ (List.length (error_msgs (check_wms_endpoint src)) ≤ 1)%nat
  ∧ (error_msgs (check_wms_endpoint src) = [] →
     ∃ r root, requests_get (url src) = Ok r ∧ iterparse (resp_text r) = Some root
       ∧ rpartition_last "}" (tag (strip_prefixes root))
           ∈ ["WMT_MS_Capabilities"; "WMS_Capabilities"]
       ∧ is_Some (attrib_get "version" (attrib root)))
  ∧ (∀ r root, requests_get (url src) = Ok r → iterparse (resp_text r) = Some root →
       rpartition_last "}" (tag (strip_prefixes root))
         ∈ ["WMT_MS_Capabilities"; "WMS_Capabilities"] →
       is_Some (attrib_get "version" (attrib root)) →
       forallb layer_ok (find_path "Capability" ["Layer"] (strip_prefixes root)) = true →
       error_msgs (check_wms_endpoint src) = []).
Proof.
  unfold check_wms_endpoint.
  destruct (requests_get (url src)) as [r|e].
  2:{ cbn. repeat split; done. }
  destruct (parse_wms iterparse (resp_text r)) as [w|e] eqn:Hparse.
  - cbn. repeat split; try done; try lia.
    intros _. unfold parse_wms in Hparse.
    destruct (iterparse (resp_text r)) as [root|] eqn:Hroot; [|discriminate].
    exists r, root. split; [done|]. split; [done|].
    unfold parse_root in Hparse.
    assert (attrib (strip_prefixes root) = attrib root) as Ha by by destruct root.
    rewrite Ha in Hparse.
    repeat case_bool_decide; cbn [negb] in Hparse; try discriminate.
    by destruct (attrib_get "version" (attrib root)).
  - cbn. repeat split; try done.
    intros r' root [= <-] Hroot Htag [v Hv] Hok. exfalso.
    destruct (parse_wms_returns _ _ _ _ Hroot Htag Hv Hok) as (w & Hw & _). congruence.
Qed.

Lemma check_tms_caught (src : source) : uncaught (check_tms src) = None.
Proof.
  unfold check_tms. destruct (centroid_of src); [|done].
  destruct (contains "{z}" (url src)); [done|].
  destruct (contains "{apikey}" (url src)); [done|].
  destruct (resolve_switch (url src)) as [[t ps]|]; [|done].
  destruct (probe_zooms _ _ _ _) as [st [[]|ex]]; [|done].
  unfold classify. by repeat destruct (_ && _).
Qed.

(** X21: the choice of the check.  A type other than [tms], [wms],
    [wms_endpoint] and [wmts] gets one warning that names it, no error and
    no request.  Only the check of a [tms] source can leave a good
    message, and only the check of a [wms] source can end with an
    uncaught exception. *)
Theorem choice_of_the_check (type : string) (src : source) :
  (type ∉ ["tms"; "wms"; "wms_endpoint"; "wmts"] →
   check_imagery_type type src
   = {| good_msgs := [];
        warning_msgs := ["Imagery type " +:+ type +:+ " is currently not checked."];
        error_msgs := []; requested := []; uncaught := None |})
  ∧ (good_msgs (check_imagery_type type src) ≠ [] → type = "tms")
  ∧ (is_Some (uncaught (check_imagery_type type src)) → type = "wms").
Proof.
  unfold check_imagery_type.
  destruct (String.eqb_spec type "tms") as [-> | Htms].
  { split; [|split]; [|done|].
    - intros Hout. destruct Hout. apply list_elem_of_here.
    - rewrite check_tms_caught. by intros [? [=]]. }
  destruct (String.eqb_spec type "wms") as [-> | Hwms].
  { split; [|split]; [| |done].
    - intros Hout. destruct Hout. compute_done.
    - by rewrite check_wms_good_nil. }
  destruct (String.eqb_spec type "wms_endpoint") as [-> | Hend].
  { split; [|split].
    - intros Hout. destruct Hout. compute_done.
    - intros Hgood. destruct Hgood. apply (check_wms_endpoint_good src).
    - intros [e He]. exfalso. revert He. apply (check_wms_endpoint_caught src). }
  destruct (String.eqb_spec type "wmts") as [-> | Hwmts].
  { split; [|split].
    - intros Hout. destruct Hout. compute_done.
    - unfold check_wmts. by destruct (WebMapTileService _).
    - unfold check_wmts. destruct (WebMapTileService _); by intros [? [=]]. }
  split; [done|]. split; [done | by intros [? [=]]].
Qed.
End MoreChecks.

(** ** More checks on concrete sources *)

(** A sublayer below a layer with EPSG:4326: its set is the copy with its
    own value, in upper case, added. *)
Lemma sublayer_crs_witness :
  set_get 1 (heap after_sublayer_a) = {["EPSG:4326"]} ∪ declared_crs sublayer_a
  ∧ Forall (λ l, heap after_sublayer_a !! l = [{["EPSG:4326"]} : gset string] !! l) [0%nat].
Proof.
  destruct (sublayer_crs sublayer_a 0 ∅ [{["EPSG:4326"]}] ∅ after_sublayer_a)
    as [Hown Hother]; [cbn; lia | vm_compute; reflexivity |].
  split; [exact Hown|]. apply Forall_singleton, Hother. cbn. lia.
Defined.

(** The version of [small_capabilities_xml], through the parser. *)
Lemma parse_wms_outcomes_witness :
  attrib_get "version" (attrib small_capabilities) = Some (version small_wms).
Proof.
  destruct (parse_wms_outcomes demo_reader small_capabilities_xml) as (_ & _ & Hversion).
  destruct (Hversion small_wms) as (root & [= <-] & Hv); [vm_compute; reflexivity|].
  exact Hv.
Defined.

(** The document has [epsg:3857] in a CRS element; the parsed layer [a]
    has it in upper case. *)
Lemma advertised_crs_come_from_the_document_witness :
  ∃ root e t,
    demo_reader small_capabilities_xml = Some root ∧ e ∈ iter (strip_prefixes root)
    ∧ (tag e = "CRS" ∨ tag e = "SRS") ∧ text e = Some t ∧ "EPSG:3857" = upper t.
Proof.
  apply (advertised_crs_come_from_the_document demo_reader small_capabilities_xml "a"
           small_wms {["EPSG:3857"; "EPSG:4326"]});
    [vm_compute; reflexivity | compute_done..].
Defined.

(** An inherited style stays, and a style of the same name is replaced. *)
Lemma add_styles_extends_witness :
  let inherited : gmap (option string) style :=
    {[ Some "s" := {| style_Title := None; style_Name := Some "s" |};
       Some "t" := {| style_Title := None; style_Name := Some "t" |} ]} in
  let child := Elem "Style" [] None [leaf "Name" "s"; leaf "Title" "S"] in
  let styles' := <[Some "s" := {| style_Title := Some (Some "S"); style_Name := Some "s" |}]>
                   inherited in
  styles' !! Some "t" = inherited !! Some "t"
  ∧ styles' !! Some "s" = style_of child.
Proof.
  intros inherited child styles'.
  split.
  - rewrite (add_styles_extends [child] inherited styles' (Some "t")); [done|].
    vm_compute. reflexivity.
  - rewrite (add_styles_extends [child] inherited styles' (Some "s")); [done|].
    vm_compute. reflexivity.
Defined.

(** A source that gets an answer has all its mandatory parameters. *)
Lemma requests_only_with_mandatory_parameters_witness :
  Forall (λ p, is_Some (@args_of_url (demo_env plain_server demo_reader)
                          (url three_layers_source) !! p)) mandatory.
Proof.
  refine (proj1 (requests_only_with_mandatory_parameters
                   (H := demo_env plain_server demo_reader) three_layers_source _)).
  vm_compute. discriminate.
Defined.

(** A [Format] element without text, the second: the check ends with a
    [TypeError] that names item 1. *)
Lemma check_wms_uncaught_witness :
  uncaught (@check_wms empty_format_env one_layer_source)
  = Some (TypeError "sequence item 1: expected str instance, NoneType found").
Proof.
  edestruct (check_wms_uncaught (H := empty_format_env) one_layer_source)
    as [_ Hraises]; [compute_done | vm_compute; reflexivity |].
  destruct (Hraises 1%nat) as [Hexn _]; [reflexivity | |exact Hexn].
  intros [|j] Hj; [discriminate | lia].
Defined.

(** A query with a blank [STYLES=]: [parse_qsl] leaves the field out,
    and the warning is given. *)
Lemma styles_warning_iff_no_styles_witness :
  "Parameter 'styles' is missing in url. 'STYLES=' can be used to request default style."
  ∈ warning_msgs (@check_wms (demo_env plain_server demo_reader) blank_styles_source).
Proof.
  apply (styles_warning_iff_no_styles (H := demo_env plain_server demo_reader)
           blank_styles_source); [compute_done|].
  intros n v Hin. revert n v Hin.
  assert (Forall (λ kv : string * string, lower kv.1 ≠ "styles")
            (@parse_qsl (demo_env plain_server demo_reader)
               (query (@urlparse (demo_env plain_server demo_reader)
                         (url blank_styles_source))))) as Hall
    by (vm_compute; repeat constructor; discriminate).
  intros n v Hin. exact (proj1 (Forall_forall _ _) Hall (n, v) Hin).
Defined.

(** Zoom 7 of the widening from 5 to 10 is within 3 of [min_zoom]. *)
Lemma tested_zooms_are_near_the_ends_witness :
  (7 = 5 ∨ 7 = 10 ∨ (5 < 7 < 10 ∧ (7 ≤ 5 + 3 ∨ 10 - 3 ≤ 7)))%Z.
Proof.
  apply (tested_zooms_are_near_the_ends (H := demo_env sparse_tiles demo_reader)
           tile_env 5 10 7
           (@probe_zooms (demo_env sparse_tiles demo_reader) tile_env 5 10 no_probes).1
           (@probe_zooms (demo_env sparse_tiles demo_reader) tile_env 5 10 no_probes).2);
    [apply surjective_pairing | compute_done].
Defined.

(** Tiles at zooms 7 and 10, and a source from 7 to 10: good, after two
    requests. *)
Lemma good_iff_both_ends_reachable_witness :
  error_msgs (@check_tms (demo_env sparse_tiles demo_reader) (tms_source tile_template 7 10)) = []
  ∧ List.length (requested (@check_tms (demo_env sparse_tiles demo_reader)
                              (tms_source tile_template 7 10))) = 2%nat.
Proof.
  destruct (good_iff_both_ends_reachable (H := demo_env sparse_tiles demo_reader)
              (tms_source tile_template 7 10) (61 # 10, 496 # 10) tile_template [])
    as [Hiff Hgood]; try (vm_compute; reflexivity).
  apply Hgood, Hiff. split; vm_compute; reflexivity.
Defined.

(** The widening from 5 to 10 classifies no zoom twice. *)
Lemma probe_zooms_once_witness :
  NoDup (zoom_success (@probe_zooms (demo_env sparse_tiles demo_reader) tile_env 5 10 no_probes).1
         ++ zoom_failures (@probe_zooms (demo_env sparse_tiles demo_reader) tile_env 5 10 no_probes).1).
Proof.
  apply (probe_zooms_once (H := demo_env sparse_tiles demo_reader) tile_env 5 10 _
           (@probe_zooms (demo_env sparse_tiles demo_reader) tile_env 5 10 no_probes).2);
    [lia | apply surjective_pairing].
Defined.

(** The key [a] twice. *)
Lemma dict_raise_on_duplicates_raises_witness :
  dict_raise_on_duplicates repr_plain
    [("a", JNull); ("b", JBool true); ("a", JStr "x"); ("c", JNull)]
  = ValidationError "duplicate key: 'a'".
Proof.
  apply (dict_raise_on_duplicates_raises repr_plain
           [("a", JNull); ("b", JBool true)] [("c", JNull)] "a" (JStr "x")); [|compute_done].
  repeat constructor; compute_done.
Defined.
